(** * Verification of the schedlib SAT policy: round-robin resolver,
      operation sequencer and instrument helpers.

    Shallow embedding of [src/src/schedlib/policies/sat.py] and
    [src/src/schedlib/instrument.py]. *)

From Stdlib Require Import String ZArith Bool Lia List Permutation.
Import ListNotations.

(* ------------------------------------------------------------------ *)
(** ** Blocks as seen by the resolver *)

(** The resolver only reads the time interval of a block and compares whole
    blocks with [==] (dataclass equality).  A block is its interval here; the
    docstring examples of [round_robin] use the pairs [[t0, t1]] directly. *)
Record Block := mkBlock { t0 : Z; t1 : Z }.

(** [==] on blocks: field-wise equality. *)
Definition block_eqb (a b : Block) : bool :=
  Z.eqb (t0 a) (t0 b) && Z.eqb (t1 a) (t1 b).

(** Modelled from the spec: [core.block_overlap] is not in the repository
    snapshot (module [core] is missing).  The spec (4.1) says the test is true
    when the candidate's interval intersects an interval already in the
    sequence; the touching-endpoint case is left open there.  We take open
    intersection: touching endpoints do not overlap. *)
Definition block_overlap (a b : Block) : bool :=
  (t0 a <? t1 b)%Z && (t0 b <? t1 a)%Z.

(** Modelled from the spec: [core.seq_has_overlap_with_block seq block],
    true iff [block] overlaps some block of [seq]. *)
Definition seq_has_overlap_with_block (seq : list Block) (block : Block) : bool :=
  existsb (fun b => block_overlap b block) seq.

(* ------------------------------------------------------------------ *)
(** ** [round_robin] (sat.py, lines 775-866) *)

(** The generator's local variables. *)
Record rr_state := mkRR {
  block_idx : list nat;
  seq_i : nat;
  block_i : list nat;
  merged : list Block
}.

(** What one iteration of the [while True] loop does. *)
Inductive rr_event :=
| Yield (b : Block)   (* [yield block_v] *)
| Silent              (* [continue], or a rejection *)
| Return              (* [return]: the generator is exhausted *)
| Raise.              (* an [IndexError] *)

(** [block_i[i] += 1]; [None] is Python's [IndexError]. *)
Fixpoint incr_at (i : nat) (l : list nat) : option (list nat) :=
  match l, i with
  | [], _ => None
  | x :: l', O => Some (S x :: l')
  | x :: l', S i' => option_map (cons x) (incr_at i' l')
  end.

Section RoundRobin.

(** [core.seq_has_overlap_with_block], kept abstract in this section. *)
Variable overlap_with : list Block -> Block -> bool.
Variables seqs_q seqs_v : list (list Block).
Variable sun_avoidance : option (Block -> Block).

(** [all([block_idx[i] >= len(seqs_q[i]) for i in range(n_seq)])] *)
Definition all_exhausted (idx : list nat) : bool :=
  forallb (fun i => Nat.leb (length (nth i seqs_q [])) (nth i idx O))
          (seq 0 (length seqs_q)).

(** The sun-avoidance part of [ok]: [block_q == sun_avoidance(block_q)]. *)
Definition sun_ok (block_q : Block) : bool :=
  match sun_avoidance with
  | None => true
  | Some f => block_eqb block_q (f block_q)
  end.

(** One pass of the loop body. *)
Definition rr_step (s : rr_state) : rr_event * rr_state :=
  let n_seq := length seqs_q in
  if all_exhausted (block_idx s) then (Return, s) else
  match nth_error (block_i s) (seq_i s), nth_error seqs_q (seq_i s) with
  | Some bi, Some seq_q =>
      if Nat.leb (length seq_q) bi then
        (Silent, mkRR (block_idx s) (Nat.modulo (S (seq_i s)) n_seq)
                      (block_i s) (merged s))
      else
        match nth_error seqs_v (seq_i s) with
        | None => (Raise, s)
        | Some seq_v =>
          match nth_error seq_q bi, nth_error seq_v bi with
          | Some block_q, Some block_v =>
              let ok := negb (overlap_with (merged s) block_q) && sun_ok block_q in
              if ok then
                (* yield; merged += [block_q]; rotate; block_i[seq_i] += 1 *)
                let si := Nat.modulo (S (seq_i s)) n_seq in
                match incr_at si (block_i s) with
                | Some bi' => (Yield block_v,
                               mkRR (block_idx s) si bi' (merged s ++ [block_q]))
                | None => (Raise, s)
                end
              else
                (* no rotation; block_i[seq_i] += 1 *)
                match incr_at (seq_i s) (block_i s) with
                | Some bi' => (Silent, mkRR (block_idx s) (seq_i s) bi' (merged s))
                | None => (Raise, s)
                end
          | _, _ => (Raise, s)
          end
        end
  | _, _ => (Raise, s)
  end.

End RoundRobin.

(** Status of the generator between two iterations. *)
Inductive rr_status :=
| Running (s : rr_state)
| Finished
| Failed.

(** Drive the generator for at most [fuel] loop iterations, collecting the
    yielded blocks. *)
Fixpoint rr_exec (ovl : list Block -> Block -> bool) (sq sv : list (list Block))
    (sun : option (Block -> Block)) (fuel : nat) (st : rr_status)
    : list Block * rr_status :=
  match fuel, st with
  | S k, Running s =>
      let '(ev, s') := rr_step ovl sq sv sun s in
      match ev with
      | Yield b => let '(out, st') := rr_exec ovl sq sv sun k (Running s') in
                   (b :: out, st')
      | Silent => rr_exec ovl sq sv sun k (Running s')
      | Return => ([], Finished)
      | Raise => ([], Failed)
      end
  | _, _ => ([], st)
  end.

(** The statements before the loop: default [seqs_v], the length assertion,
    and the initial cursors. *)
Definition rr_start (seqs_q : list (list Block)) (seqs_v : list (list Block))
    : rr_status :=
  if Nat.eqb (length seqs_q) (length seqs_v) then
    Running (mkRR (repeat O (length seqs_q)) O (repeat O (length seqs_q)) [])
  else Failed.

Definition values_or (seqs_q : list (list Block))
    (seqs_v : option (list (list Block))) : list (list Block) :=
  match seqs_v with None => seqs_q | Some v => v end.

(** [round_robin(seqs_q, seqs_v, sun_avoidance)] run for [fuel] iterations:
    the blocks yielded so far and the generator's status. *)
Definition round_robin (seqs_q : list (list Block))
    (seqs_v : option (list (list Block))) (sun_avoidance : option (Block -> Block))
    (fuel : nat) : list Block * rr_status :=
  let sv := values_or seqs_q seqs_v in
  rr_exec seq_has_overlap_with_block seqs_q sv sun_avoidance fuel (rr_start seqs_q sv).

Definition B (a b : Z) : Block := mkBlock a b.

Definition Block_eq_dec (a b : Block) : {a = b} + {a <> b}.
Proof. decide equality; apply Z.eq_dec. Defined.

Definition rr_state_eq_dec (a b : rr_state) : {a = b} + {a <> b}.
Proof.
  decide equality;
    first [ apply (list_eq_dec Block_eq_dec) | apply (list_eq_dec Nat.eq_dec)
          | apply Nat.eq_dec ].
Defined.

(** Equality test on generator states, to check closed sets of states. *)
Definition rr_state_eqb (a b : rr_state) : bool :=
  if rr_state_eq_dec a b then true else false.

(** A finite set of states each of which steps silently to a state of the
    set: from there the generator never yields and never returns. *)
Definition silent_closed (ovl : list Block -> Block -> bool)
    (sq sv : list (list Block)) (sun : option (Block -> Block))
    (l : list rr_state) : bool :=
  forallb (fun s => match rr_step ovl sq sv sun s with
                    | (Silent, s') => existsb (rr_state_eqb s') l
                    | _ => false
                    end) l.

(** Scenario inputs (spec, section 8, and the docstring of [round_robin]). *)
Definition scenario_A_q : list (list Block) := [[B 1 2; B 3 4]; [B 5 6]].
Definition scenario_B_q : list (list Block) := [[B 1 3; B 2 4]; [B 6 7]].
Definition scenario_B_v : list (list Block) := [[B 10 15; B 20 25]; [B 30 35]].

(** Modelled from the spec: [core.seq_sort] (not in the snapshot), a stable
    sort of a flat sequence by [t0] (spec, 4.1); insertion sort. *)
Fixpoint insert_by_t0 (b : Block) (l : list Block) : list Block :=
  match l with
  | [] => [b]
  | x :: l' => if (t0 b <=? t0 x)%Z then b :: x :: l' else x :: insert_by_t0 b l'
  end.

Definition sort_by_t0 (l : list Block) : list Block :=
  fold_right insert_by_t0 [] l.

(* ------------------------------------------------------------------ *)
(** ** Instrument state and the stateful operations (sat.py, 213-281) *)

(** The [state] dict threaded through the registered operations. Times and
    angles are whole numbers of seconds and degrees here. *)
Record State := mkState {
  curr_time : Z;
  az_now : Z;
  el_now : Z;
  boresight_rot_now : option Z;
  hwp_spinning : bool;
  last_ufm_relock : option Z;
  az_speed_now : Z;
  az_accel_now : Z
}.

Definition empty_line : string := EmptyString.

Section Operations.

(** [u.minute] and [u.hour] (module [schedlib.utils], not in the snapshot),
    kept as parameters: every statement below holds for any values. *)
Variables minute hour : Z.

(** [ufm_relock(state)], lines 213-240: [(duration, commands)] and the
    updated state. *)
Definition ufm_relock (state : State) : (Z * list string) * State :=
  let doit :=
    match last_ufm_relock state with
    | None => true
    | Some t => (curr_time state - t >? 12 * hour)%Z
    end in
  if doit then
    ((15 * minute,
      ["############# Daily Relock ######################";
       "for smurf in pysmurfs:";
       "    smurf.zero_biases.start()";
       "for smurf in pysmurfs:";
       "    smurf.zero_biases.wait()";
       empty_line;
       "time.sleep(120)";
       "run.smurf.take_noise(concurrent=True, tag='oper,take_noise,res_check')";
       empty_line;
       "run.smurf.uxm_relock(concurrent=True)";
       "#################################################"]%string)%Z,
     mkState (curr_time state) (az_now state) (el_now state)
             (boresight_rot_now state) (hwp_spinning state)
             (Some (curr_time state)) (az_speed_now state) (az_accel_now state))
  else
    ((0%Z, ["# no ufm relock needed at this time"%string]), state).

End Operations.

Section ScanParams.

(** Python's [str] of a number, as used by the f-string of the command. *)
Variable fmt : Z -> string.

(** [set_scan_params(state, az_speed, az_accel)], lines 271-281. *)
Definition set_scan_params (state : State) (az_speed az_accel : Z)
    : list string * State :=
  if negb (Z.eqb az_speed (az_speed_now state)) || negb (Z.eqb az_accel (az_accel_now state))
  then (["run.acu.set_scan_params(" ++ fmt az_speed ++ ", " ++ fmt az_accel ++ ")"]%string,
        mkState (curr_time state) (az_now state) (el_now state)
                (boresight_rot_now state) (hwp_spinning state)
                (last_ufm_relock state) az_speed az_accel)
  else ([], state).

End ScanParams.

(* ------------------------------------------------------------------ *)
(** ** The block loop of [SATPolicy.seq2cmd] (sat.py, lines 612-766) *)

(** The fields of a scheduled block read by the loop. *)
Record SBlock := mkSBlock {
  sb_name : string;
  sb_t0 : Z;
  sb_t1 : Z;
  sb_subtype : string;
  sb_az : Z;
  sb_alt : Z;
  sb_boresight_rot : option Z;
  sb_boresight_angle : option Z
}.

(** [self.time_costs] (seconds per operation). *)
Record TimeCosts := mkTimeCosts {
  tc_det_setup : Z;
  tc_hwp_spin_up : Z;
  tc_hwp_spin_down : Z;
  tc_bias_step : Z
}.

(** Python exceptions the loop can raise. *)
Inductive PyExc :=
| AttributeError
| TypeError.

(** The outcome of a piece of Python code: its value, or the exception it
    raises. *)
Inductive Res (A : Type) :=
| Ok (a : A)
| Raises (e : PyExc).
Arguments Ok {A} a.
Arguments Raises {A} e.

(** The command blocks the loop appends without raising, by kind; their text
    is rendered by the f-strings of the source. *)
Inductive Cmd :=
| SkipNote (b : SBlock)      (* "Note: {block} skipped due to insufficient time" *)
| WaitUntil (t : Z)          (* "run.wait_until('{block.t0.isoformat()}')" *)
| SetBoresight (angle : Z)   (* "run.acu.set_boresight({block.boresight_angle})" *)
| CmbScan (b : SBlock).      (* move_to, bias steps and "run.seq.scan(...)" *)

(** The loop's local variables. *)
Record SeqState := mkSeqState {
  t_cur : Z;
  is_det_setup : bool;
  is_hwp_spinning : bool;
  cur_boresight_angle : option Z
}.

Definition option_Z_eqb (a b : option Z) : bool :=
  match a, b with
  | Some x, Some y => Z.eqb x y
  | None, None => true
  | _, _ => false
  end.

Section Seq2Cmd.

Variable time_costs : TimeCosts.
Variable apply_boresight_rot : bool.

(** [setup_time] computed at the top of the loop body. *)
Definition setup_time (st : SeqState) (block : SBlock) : Z :=
  let is_cal := String.eqb (sb_subtype block) "cal" in
  ((if negb (is_det_setup st) || is_cal then tc_det_setup time_costs else 0)
   + (if negb (is_hwp_spinning st) then tc_hwp_spin_up time_costs else 0)
   + (if is_hwp_spinning st && is_cal
      then tc_hwp_spin_down time_costs + tc_hwp_spin_up time_costs else 0))%Z.

(** The boresight step shared by both branches. *)
Definition boresight_step (block : SBlock) (cur : option Z) : list Cmd * option Z :=
  match sb_boresight_angle block with
  | Some angle =>
      if apply_boresight_rot && negb (option_Z_eqb (sb_boresight_rot block) cur)
      then ([SetBoresight angle], sb_boresight_rot block)
      else ([], cur)
  | None => ([], cur)
  end.

(** One iteration of [for block in seq] (lines 646-764): the commands it
    appends and the loop's locals afterwards, or the exception it raises.
    Three statements of the body raise whenever they run:
    - [commands += det_setup(block.az, block.alt, t_start)] (lines 673, 716):
      [det_setup] is declared [det_setup(state, block, disable_hwp=False)]
      (lines 284-285), so its [block] is the float [block.alt], and its first
      test reads [block.az]: [AttributeError];
    - [commands += hwp_spin_up] (lines 677, 727) and
      [commands += hwp_spin_down] (line 709): the right-hand side is the
      operation function itself, and [list += function] raises [TypeError]
      (a function is not iterable). *)
Definition seq2cmd_step (st : SeqState) (block : SBlock) : Res (list Cmd * SeqState) :=
  let setup := setup_time st block in
  let is_cmb := String.eqb (sb_subtype block) "cmb" in
  let is_cal := String.eqb (sb_subtype block) "cal" in
  if is_cmb && (t_cur st + setup >? sb_t1 block)%Z then
    Ok ([SkipNote block], st)                                (* continue *)
  else
    let r1 :=
      if is_cmb then
        if negb (is_det_setup st) then
          Raises AttributeError     (* det_setup(block.az, block.alt, t_start) *)
        else if negb (is_hwp_spinning st) then
          Raises TypeError          (* commands += hwp_spin_up *)
        else
          let '(cb, bore) := boresight_step block (cur_boresight_angle st) in
          Ok ([WaitUntil (sb_t0 block)] ++ cb ++ [CmbScan block],
              mkSeqState (t_cur st) (is_det_setup st) (is_hwp_spinning st) bore)
      else Ok ([], st) in
    match r1 with
    | Raises e => Raises e
    | Ok (c1, st1) =>
        if is_cal then
          if is_hwp_spinning st1 then
            Raises TypeError        (* commands += hwp_spin_down *)
          else
            Raises AttributeError   (* det_setup(block.az, block.alt, t_start) *)
        else
          (* t_cur = block.t1 + bias_step *)
          Ok (c1, mkSeqState (sb_t1 block + tc_bias_step time_costs)%Z
                             (is_det_setup st1) (is_hwp_spinning st1)
                             (cur_boresight_angle st1))
    end.

(** The whole loop: the commands appended by all iterations and the final
    locals, or the first exception raised. *)
Fixpoint seq2cmd_loop (st : SeqState) (seq : list SBlock) : Res (list Cmd * SeqState) :=
  match seq with
  | [] => Ok ([], st)
  | block :: rest =>
      match seq2cmd_step st block with
      | Raises e => Raises e
      | Ok (cmds, st') =>
          match seq2cmd_loop st' rest with
          | Raises e => Raises e
          | Ok (cmds', st'') => Ok (cmds ++ cmds', st'')
          end
      end
  end.

End Seq2Cmd.

(** The loop's initial state: [t_cur = t0 + time_cost]. *)
Definition seq2cmd_init (t_start : Z) : SeqState := mkSeqState t_start false false None.

(* ------------------------------------------------------------------ *)
(** ** [get_spec] (instrument.py, lines 33-49) *)

(** A leaf spec: [{'bounds_x': [lo, hi], 'bounds_y': [lo, hi]}]. *)
Record Spec := mkSpec { bounds_x : Z * Z; bounds_y : Z * Z }.

(** A [SpecsTree]: a nested dict whose leaves are spec dicts. *)
#[local] Set Warnings "-register-all".
Inductive SpecsTree :=
| SLeaf (s : Spec)
| SDict (kvs : list (string * SpecsTree)).

(** Modelled from the spec: [utils.path2key] (module [schedlib.utils], not in
    the snapshot) turns a key path into the dot-separated path of the leaf,
    as the comment above [get_spec] says. *)
Definition path2key (path : list string) : string := String.concat "." path.

(** Python's [p in key] on strings. *)
Fixpoint str_contains (p key : string) : bool :=
  String.prefix p key ||
  match key with
  | EmptyString => false
  | String _ key' => str_contains p key'
  end.

(** [match_p = lambda key: any([p in key for p in query])] *)
Definition match_p (query : list string) (key : string) : bool :=
  existsb (fun p => str_contains p key) query.

(** [jax.tree_util] flattens a dict in sorted key order. *)
Fixpoint insert_by_key {A} (kv : string * A) (l : list (string * A)) : list (string * A) :=
  match l with
  | [] => [kv]
  | kv' :: l' => if String.leb (fst kv) (fst kv') then kv :: kv' :: l'
                 else kv' :: insert_by_key kv l'
  end.

Definition sort_keys {A} (kvs : list (string * A)) : list (string * A) :=
  fold_right insert_by_key [] kvs.

(** The leaves of the tree with their key paths, in flattening order: each
    child's leaves, children taken in sorted key order. *)
Fixpoint spec_leaves (path : list string) (t : SpecsTree) : list (list string * Spec) :=
  match t with
  | SLeaf s => [(path, s)]
  | SDict kvs =>
      concat (map snd (sort_keys
        (map (fun kt => (fst kt, spec_leaves (path ++ [fst kt]) (snd kt))) kvs)))
  end.

(** [all_matches]: the leaves whose path matches, [None] leaves dropped. *)
Definition all_matches (specs : SpecsTree) (query : list string) : list Spec :=
  map snd (filter (fun ps => match_p query (path2key (fst ps))) (spec_leaves [] specs)).

(** [reduce_fn(l, r)] *)
Definition reduce_fn (l r : Spec) : Spec :=
  mkSpec (Z.min (fst (bounds_x l)) (fst (bounds_x r)), Z.max (snd (bounds_x l)) (snd (bounds_x r)))
         (Z.min (fst (bounds_y l)) (fst (bounds_y r)), Z.max (snd (bounds_y l)) (snd (bounds_y r))).

(** [if len(all_matches) == 0: return {}];
    [reduce(reduce_fn, all_matches[1:], all_matches[0])]; [None] is [{}]. *)
Definition reduce_specs (ms : list Spec) : option Spec :=
  match ms with
  | [] => None
  | m :: ms' => Some (fold_left reduce_fn ms' m)
  end.

(** [get_spec(specs, query, merge=True)] *)
Definition get_spec (specs : SpecsTree) (query : list string) : option Spec :=
  reduce_specs (all_matches specs query).

(** A leaf of the tree and its key path (as the tree is read in the spec). *)
Inductive leaf_at : SpecsTree -> list string -> Spec -> Prop :=
| la_leaf s : leaf_at (SLeaf s) [] s
| la_child kvs k t p s : In (k, t) kvs -> leaf_at t p s -> leaf_at (SDict kvs) (k :: p) s.

(** [r] is the merge of the specs satisfying [P]: its lower bounds are the
    least lower bounds among them and its upper bounds the greatest upper
    bounds, componentwise. *)
Definition is_merge (P : Spec -> Prop) (r : Spec) : Prop :=
  (forall x, P x ->
     (fst (bounds_x r) <= fst (bounds_x x) /\ snd (bounds_x x) <= snd (bounds_x r) /\
      fst (bounds_y r) <= fst (bounds_y x) /\ snd (bounds_y x) <= snd (bounds_y r))%Z)
  /\ (exists x, P x /\ fst (bounds_x r) = fst (bounds_x x))
  /\ (exists x, P x /\ snd (bounds_x r) = snd (bounds_x x))
  /\ (exists x, P x /\ fst (bounds_y r) = fst (bounds_y x))
  /\ (exists x, P x /\ snd (bounds_y r) = snd (bounds_y x)).

(** The leaves of [specs] whose dot-joined path contains a query string. *)
Definition matching_leaf (specs : SpecsTree) (query : list string) (s : Spec) : Prop :=
  exists p, leaf_at specs p s /\ match_p query (path2key p) = true.

(** Two blocks do not overlap. *)
Definition disjoint (a b : Block) : Prop := block_overlap a b = false.

(** Inputs of the sequencer examples. *)
Definition cal_late : SBlock := mkSBlock "cal-late" 0 100 "cal" 0 50 None None.
Definition cmb_late : SBlock := mkSBlock "cmb-late" 0 100 "cmb" 0 50 None None.
Definition costs_example : TimeCosts := mkTimeCosts 60 1200 600 10.

(** Induction over [SpecsTree], through the children of a dict. *)
Section TreeInd.
Variable P : SpecsTree -> Prop.
Hypothesis HLeaf : forall s, P (SLeaf s).
Hypothesis HDict : forall kvs, Forall (fun kt => P (snd kt)) kvs -> P (SDict kvs).

Fixpoint specs_tree_ind (t : SpecsTree) : P t :=
  match t with
  | SLeaf s => HLeaf s
  | SDict kvs =>
      HDict kvs ((fix go (l : list (string * SpecsTree)) : Forall (fun kt => P (snd kt)) l :=
                    match l with
                    | [] => Forall_nil _
                    | kt :: l' => Forall_cons kt (specs_tree_ind (snd kt)) (go l')
                    end) kvs)
  end.
End TreeInd.

(* ------------------------------------------------------------------ *)
(** ** HWP, boresight and detector-setup operations (sat.py, 242-326) *)

Section HwpOps.

(** [u.minute] (module [schedlib.utils], not in the snapshot). *)
Variable minute : Z.
(** Python's [str] of [round(angle, 3)] and [datetime.isoformat()], as used
    by the f-strings of the commands. *)
Variable fmt : Z -> string.
Variable iso : Z -> string.

(** [str] of an optional number: [None] prints as [None]. *)
Definition fmt_opt (x : option Z) : string :=
  match x with None => "None"%string | Some z => fmt z end.

(** [f"run.acu.move_to(az={round(block.az,3)}, el={round(block.alt,3)})"] *)
Definition move_to_cmd (block : SBlock) : string :=
  ("run.acu.move_to(az=" ++ fmt (sb_az block) ++ ", el=" ++ fmt (sb_alt block) ++ ")")%string.

(** [hwp_spin_up(state, disable_hwp)], lines 242-255. *)
Definition hwp_spin_up (state : State) (disable_hwp : bool) : (Z * list string) * State :=
  if negb disable_hwp && negb (hwp_spinning state) then
    ((20 * minute,
      ["############# Start HWP ######################";
       "HWPPrep()";
       "forward = True";
       "hwp_freq = 2.0";
       "HWPSpinUp()"]%string)%Z,
     mkState (curr_time state) (az_now state) (el_now state)
             (boresight_rot_now state) true
             (last_ufm_relock state) (az_speed_now state) (az_accel_now state))
  else ((0%Z, ["# hwp disabled or already spinning"%string]), state).

(** [hwp_spin_down(state, disable_hwp)], lines 257-269. *)
Definition hwp_spin_down (state : State) (disable_hwp : bool) : (Z * list string) * State :=
  if negb disable_hwp && hwp_spinning state then
    ((10 * minute,
      ["############# Stop HWP ######################";
       "HWPFastStop()";
       "HWPPost()";
       "hwp_freq = 0.0"]%string)%Z,
     mkState (curr_time state) (az_now state) (el_now state)
             (boresight_rot_now state) false
             (last_ufm_relock state) (az_speed_now state) (az_accel_now state))
  else ((0%Z, ["# hwp disabled or not spinning"%string]), state).

(** [det_setup(state, block, disable_hwp=False)], lines 284-313.  [None] is
    the [TypeError] of the call [hwp_spin_down(state)], which omits the
    required argument [disable_hwp] (the decorator [cmd.operation] is taken to
    return the function it registers).  The two adjacent literals after
    [""] have no comma between them: Python joins them into one line. *)
Definition det_setup (state : State) (block : SBlock) (disable_hwp : bool)
    : option ((Z * list string) * State) :=
  if negb (Z.eqb (sb_az block) (az_now state)) || negb (Z.eqb (sb_alt block) (el_now state))
  then
    if negb disable_hwp && hwp_spinning state then None
    else
      let commands :=
        [empty_line;
         "run.wait_until('" ++ iso (sb_t0 block) ++ "')"
           ++ "################### Detector Setup######################";
         move_to_cmd block;
         "run.smurf.take_bgmap(concurrent=True)";
         "run.smurf.iv_curve(concurrent=False, settling_time=0.1)";
         "run.smurf.bias_dets(concurrent=True)";
         "time.sleep(180)";
         "run.smurf.bias_step(concurrent=True)";
         "#################### Detector Setup Over ####################";
         empty_line]%string in
      if negb disable_hwp && negb (hwp_spinning state) then
        let '((d, c), state') := hwp_spin_up state disable_hwp in
        Some ((60 + d, commands ++ c)%Z, state')
      else Some ((60%Z, commands), state)
  else Some ((0%Z, []), state).

(** [setup_boresight(state, block, apply_boresight_rot)], lines 315-326; the
    command string lacks its closing parenthesis, as in the source. *)
Definition setup_boresight (state : State) (block : SBlock) (apply_boresight_rot : bool)
    : list string * State :=
  let '(c1, state1) :=
    if apply_boresight_rot
       && negb (option_Z_eqb (boresight_rot_now state) (sb_boresight_rot block))
    then (["run.acu.set_boresight(" ++ fmt_opt (sb_boresight_angle block)]%string,
          mkState (curr_time state) (az_now state) (el_now state)
                  (sb_boresight_rot block) (hwp_spinning state)
                  (last_ufm_relock state) (az_speed_now state) (az_accel_now state))
    else ([], state) in
  if negb (Z.eqb (sb_az block) (az_now state1)) || negb (Z.eqb (sb_alt block) (el_now state1))
  then (c1 ++ [move_to_cmd block],
        mkState (curr_time state1) (sb_az block) (sb_alt block)
                (boresight_rot_now state1) (hwp_spinning state1)
                (last_ufm_relock state1) (az_speed_now state1) (az_accel_now state1))
  else (c1, state1).

End HwpOps.

(** Invariant of the generator's cursors: one cursor per candidate list, and
    [seq_i] indexes a candidate list. *)
Definition rr_inv (sq : list (list Block)) (s : rr_state) : Prop :=
  length (block_i s) = length sq /\ (seq_i s < length sq \/ sq = []).

(** Two sun-avoidance arguments that are the same rule on the blocks of the
    candidate query lists: both absent, or both present and returning the same
    block for every query block. *)
Definition same_rule_on (seqs_q : list (list Block)) (s1 s2 : option (Block -> Block)) : Prop :=
  match s1, s2 with
  | None, None => True
  | Some f1, Some f2 => forall q b, In q seqs_q -> In b q -> f1 b = f2 b
  | _, _ => False
  end.

(** Inputs of the examples below. *)
Definition shift_at_100 (b : Block) : Block := if Z.eqb (t0 b) 100 then mkBlock 0 0 else b.
Definition extend_by_one (b : Block) : Block := mkBlock (t0 b) (t1 b + 1).
Definition blk (name sub : string) (a b az alt : Z) : SBlock :=
  mkSBlock name a b sub az alt None None.
Definition cmb_fits : SBlock := blk "cmb-1" "cmb" 2000 3000 10 50.
Definition iv_block : SBlock := blk "iv-1" "iv" 0 10 0 50.
Definition state_example : State := mkState 0 180 60 (Some 0%Z) false None 1 2.
Definition spec_tree_example : SpecsTree :=
  SDict [("ws0"%string, SLeaf (mkSpec (-1, 1)%Z (-2, 2)%Z));
         ("ws1"%string, SLeaf (mkSpec (0, 3)%Z (-1, 1)%Z))].

(* ------------------------------------------------------------------ *)
(** ** Running the generator *)

Section Exec.

Variable ovl : list Block -> Block -> bool.
Variables sq sv : list (list Block).
Variable sun : option (Block -> Block).

Lemma rr_state_eqb_true (a b : rr_state) : rr_state_eqb a b = true -> a = b.
Proof. unfold rr_state_eqb; destruct (rr_state_eq_dec a b); congruence. Qed.

(** Running [k] iterations and then [n] more is running [k + n]. *)
Lemma rr_exec_add (k n : nat) (st : rr_status) (out : list Block) (s : rr_state) :
  rr_exec ovl sq sv sun k st = (out, Running s) ->
  rr_exec ovl sq sv sun (k + n) st =
    (out ++ fst (rr_exec ovl sq sv sun n (Running s)),
     snd (rr_exec ovl sq sv sun n (Running s))).
Proof.
  revert st out.
  induction k as [|k IH]; intros st out H.
  - simpl in H. inversion H; subst. simpl. destruct (rr_exec _ _ _ _ _ _); reflexivity.
  - destruct st as [s0| |]; simpl in H |- *; try discriminate.
    destruct (rr_step ovl sq sv sun s0) as [ev s1].
    destruct ev; try discriminate.
    + destruct (rr_exec ovl sq sv sun k (Running s1)) as [o st'] eqn:E.
      inversion H; subst.
      rewrite (IH _ _ E). reflexivity.
    + apply IH. exact H.
Qed.

(** A silently closed set of states is never left: no yield, no return. *)
Lemma silent_closed_sound (l : list rr_state) :
  silent_closed ovl sq sv sun l = true ->
  forall n s, In s l ->
  exists s', rr_exec ovl sq sv sun n (Running s) = ([], Running s') /\ In s' l.
Proof.
  intros Hc n. induction n as [|n IH]; intros s Hs.
  - exists s. split; [reflexivity | exact Hs].
  - unfold silent_closed in Hc. rewrite forallb_forall in Hc.
    specialize (Hc s Hs). simpl.
    destruct (rr_step ovl sq sv sun s) as [ev s1].
    destruct ev; try discriminate.
    apply existsb_exists in Hc as [s2 [Hin Heq]].
    apply rr_state_eqb_true in Heq. subst s2.
    exact (IH s1 Hin).
Qed.

End Exec.

(** Running [k] iterations into a silently closed set of states pins the
    output of every longer run. *)
Lemma rr_exec_stuck ovl sq sv sun k st out s (l : list rr_state) :
  rr_exec ovl sq sv sun k st = (out, Running s) ->
  In s l -> silent_closed ovl sq sv sun l = true ->
  forall n, exists s',
    rr_exec ovl sq sv sun (k + n) st = (out, Running s') /\ In s' l.
Proof.
  intros Hk Hin Hc n.
  rewrite (rr_exec_add ovl sq sv sun k n st out s Hk).
  destruct (silent_closed_sound ovl sq sv sun l Hc n s Hin) as [s' [E Hs']].
  rewrite E. simpl. rewrite app_nil_r. exists s'. split; [reflexivity | exact Hs'].
Qed.

(** [block_idx] is never written by the loop body. *)
Lemma rr_step_block_idx ovl sq sv sun s :
  block_idx (snd (rr_step ovl sq sv sun s)) = block_idx s.
Proof.
  unfold rr_step.
  destruct (all_exhausted sq (block_idx s)); [reflexivity|].
  destruct (nth_error (block_i s) (seq_i s)) as [bi|]; [|reflexivity].
  destruct (nth_error sq (seq_i s)) as [q|]; [|reflexivity].
  destruct (Nat.leb (length q) bi); [reflexivity|].
  destruct (nth_error sv (seq_i s)) as [v|]; [|reflexivity].
  destruct (nth_error q bi) as [bq|]; [|reflexivity].
  destruct (nth_error v bi) as [bv|]; [|reflexivity].
  destruct (negb (ovl (merged s) bq) && sun_ok sun bq).
  - destruct (incr_at _ (block_i s)); reflexivity.
  - destruct (incr_at (seq_i s) (block_i s)); reflexivity.
Qed.

Lemma all_exhausted_zeros sq i :
  i < length sq ->
  all_exhausted sq (repeat O (length sq)) = true -> nth i sq [] = [].
Proof.
  intros Hi H. unfold all_exhausted in H. rewrite forallb_forall in H.
  assert (Hin : In i (seq 0 (length sq))) by (apply in_seq; lia).
  specialize (H i Hin). rewrite nth_repeat in H.
  apply Nat.leb_le in H. destruct (nth i sq []); [reflexivity | simpl in H; lia].
Qed.

(** The generator returns only when every candidate list is empty: the
    exhaustion test reads [block_idx], which stays all zeros. *)
Lemma round_robin_finished_only_if_empty sq sv sun n out :
  round_robin sq sv sun n = (out, Finished) -> forall q, In q sq -> q = [].
Proof.
  unfold round_robin, rr_start.
  set (v := values_or sq sv).
  destruct (Nat.eqb (length sq) (length v)).
  2:{ destruct n; simpl; discriminate. }
  assert (Hinv : forall s, block_idx s = repeat O (length sq) ->
            forall n out, rr_exec seq_has_overlap_with_block sq v sun n (Running s)
                          = (out, Finished) ->
            forall q, In q sq -> q = []).
  { clear n out. intros s Hs n. revert s Hs.
    induction n as [|n IH]; intros s Hs out H q Hq; [discriminate|].
    simpl in H.
    pose proof (rr_step_block_idx seq_has_overlap_with_block sq v sun s) as Hb.
    destruct (rr_step seq_has_overlap_with_block sq v sun s) as [ev s1] eqn:E.
    simpl in Hb. destruct ev.
    - destruct (rr_exec _ _ _ _ n (Running s1)) as [o st] eqn:E2.
      inversion H; subst. apply (IH s1 (eq_trans Hb Hs) o E2 q Hq).
    - apply (IH s1 (eq_trans Hb Hs) out H q Hq).
    - unfold rr_step in E. rewrite Hs in E.
      destruct (all_exhausted sq (repeat 0%nat (length sq))) eqn:Ex.
      + apply In_nth with (d := []) in Hq as [i [Hi <-]].
        exact (all_exhausted_zeros sq i Hi Ex).
      + repeat match type of E with
               | context [match ?x with _ => _ end] => destruct x
               end; discriminate.
    - discriminate. }
  intros H. eapply Hinv; [|exact H]. reflexivity.
Qed.

(* ------------------------------------------------------------------ *)
(** ** Termination and the end-to-end scenarios of the resolver *)

(** C1 (defect): on the single candidate list [[[1,2]]] the
    generator yields [[1,2]] and then loops for ever: after any number of
    further iterations it is still running and has yielded nothing else, so
    it never signals exhaustion although the only cursor is at the end of its
    list. *)
Theorem round_robin_single_list_never_exhausted :
  forall n, exists s,
    round_robin [[B 1 2]] None None (1 + n) = ([B 1 2], Running s)
    /\ block_i s = [1%nat].
Proof.
  intros n.
  destruct (rr_exec_stuck seq_has_overlap_with_block [[B 1 2]] [[B 1 2]] None 1
              (rr_start [[B 1 2]] [[B 1 2]]) [B 1 2] (mkRR [0%nat] 0 [1%nat] [B 1 2])
              [mkRR [0%nat] 0 [1%nat] [B 1 2]]) with (n := n)
    as [s' [E [<- | []]]].
  - vm_compute. reflexivity.
  - left. reflexivity.
  - vm_compute. reflexivity.
  - exists (mkRR [0%nat] 0 [1%nat] [B 1 2]). split; [exact E | reflexivity].
Qed.

(** Closes the side conditions of [rr_exec_stuck] on concrete inputs. *)
Ltac run_into_closed_set :=
  first [ vm_compute; reflexivity | simpl; tauto ].

(** C2 (defect): on scenario A the generator yields [[1,2]] and
    [[3,4]] and then runs for ever without yielding [[5,6]]. *)
Theorem round_robin_scenario_A_behaviour :
  forall n, exists s,
    round_robin scenario_A_q None None (4 + n) = ([B 1 2; B 3 4], Running s).
Proof.
  intros n.
  destruct (rr_exec_stuck seq_has_overlap_with_block scenario_A_q scenario_A_q None 4
              (rr_start scenario_A_q scenario_A_q) [B 1 2; B 3 4]
              (mkRR [0;0]%nat 1 [1;2]%nat [B 1 2; B 3 4])
              [mkRR [0;0]%nat 1 [1;2]%nat [B 1 2; B 3 4];
               mkRR [0;0]%nat 0 [1;2]%nat [B 1 2; B 3 4];
               mkRR [0;0]%nat 0 [2;2]%nat [B 1 2; B 3 4];
               mkRR [0;0]%nat 1 [2;2]%nat [B 1 2; B 3 4]]) with (n := n)
    as [s' [E _]]; try run_into_closed_set.
  exists s'. exact E.
Qed.

(** C3 (defect): the first iteration of scenario A accepts [[1,2]]
    from candidate 0, rotates to candidate 1 and then advances candidate 1's
    cursor: the cursors go from [[0;0]] to [[0;1]], not to [[1;0]]. *)
Theorem round_robin_accept_advances_next_cursor :
  rr_step seq_has_overlap_with_block scenario_A_q scenario_A_q None
          (mkRR [0;0]%nat 0 [0;0]%nat [])
  = (Yield (B 1 2), mkRR [0;0]%nat 1 [0;1]%nat [B 1 2]).
Proof. vm_compute. reflexivity. Qed.

(** C5 (defect): on scenario B, with a sun-avoidance rule returning
    every block unchanged, the generator yields [[10,15]] only and runs for
    ever: [[6,7]] is never tried. *)
Theorem round_robin_scenario_B_behaviour :
  forall n, exists s,
    round_robin scenario_B_q (Some scenario_B_v) (Some (fun b => b)) (4 + n)
    = ([B 10 15], Running s).
Proof.
  intros n.
  destruct (rr_exec_stuck seq_has_overlap_with_block scenario_B_q scenario_B_v
              (Some (fun b => b)) 4
              (rr_start scenario_B_q scenario_B_v) [B 10 15]
              (mkRR [0;0]%nat 0 [2;1]%nat [B 1 3])
              [mkRR [0;0]%nat 0 [2;1]%nat [B 1 3];
               mkRR [0;0]%nat 1 [2;1]%nat [B 1 3]]) with (n := n)
    as [s' [E _]]; try run_into_closed_set.
  exists s'. exact E.
Qed.

(* ------------------------------------------------------------------ *)
(** ** Non-overlap of the yielded blocks *)


Lemma disjoint_sym a b : disjoint a b -> disjoint b a.
Proof. unfold disjoint, block_overlap. rewrite andb_comm. auto. Qed.

Lemma FOP_app_single (R : Block -> Block -> Prop) l b :
  ForallOrdPairs R l -> Forall (fun a => R a b) l -> ForallOrdPairs R (l ++ [b]).
Proof.
  induction l as [|a l IH]; intros H1 H2; simpl.
  - constructor; constructor.
  - inversion H1; subst. inversion H2; subst.
    constructor; [apply Forall_app; split; [assumption | constructor; auto] |].
    apply IH; assumption.
Qed.

Lemma FOP_perm (R : Block -> Block -> Prop) :
  (forall a b, R a b -> R b a) ->
  forall l l', Permutation l l' -> ForallOrdPairs R l -> ForallOrdPairs R l'.
Proof.
  intros Hsym l l' P. induction P; intros H.
  - exact H.
  - inversion H; subst. constructor; [|auto].
    eapply Permutation_Forall; eassumption.
  - inversion H as [|? ? H1 H2]; subst. inversion H2 as [|? ? H3 H4]; subst.
    inversion H1; subst.
    constructor; [constructor; [apply Hsym; assumption | assumption] |].
    constructor; assumption.
  - auto.
Qed.

Lemma insert_by_t0_perm b l : Permutation (b :: l) (insert_by_t0 b l).
Proof.
  induction l as [|x l IH]; simpl; [reflexivity|].
  destruct (t0 b <=? t0 x)%Z; [reflexivity|].
  eapply perm_trans; [apply perm_swap|]. constructor. exact IH.
Qed.

Lemma sort_by_t0_perm l : Permutation l (sort_by_t0 l).
Proof.
  induction l as [|x l IH]; simpl; [reflexivity|].
  eapply perm_trans; [constructor; exact IH | apply insert_by_t0_perm].
Qed.

(** With [seqs_v] defaulted to [seqs_q], a yield emits the query block, which
    does not overlap anything accepted so far, and appends it to [merged]. *)
(** Case analysis of one loop iteration, following the branches of the
    source. *)
Ltac rr_cases H :=
  unfold rr_step in H; cbv zeta in H;
  repeat match type of H with
         | context [if ?c then _ else _] => let E := fresh "E" in destruct c eqn:E
         | context [match ?x with _ => _ end] => let E := fresh "E" in destruct x eqn:E
         end;
  try discriminate.

(** With [seqs_v] defaulted to [seqs_q], a yield emits the query block, which
    does not overlap anything accepted so far, and appends it to [merged]. *)
Lemma rr_step_yield_same sq sun s b s' :
  rr_step seq_has_overlap_with_block sq sq sun s = (Yield b, s') ->
  merged s' = merged s ++ [b] /\ Forall (fun a => disjoint a b) (merged s).
Proof.
  intros H. rr_cases H.
  inversion H; subst; clear H. simpl. split; [reflexivity|].
  match goal with
  | Hok : negb (seq_has_overlap_with_block _ _) && _ = true |- _ =>
      apply andb_prop in Hok as [Ho _]; apply negb_true_iff in Ho
  end.
  unfold seq_has_overlap_with_block in Ho.
  apply Forall_forall. intros a Ha. unfold disjoint.
  destruct (block_overlap a b) eqn:Eab; [|reflexivity].
  rewrite <- Ho. symmetry. apply existsb_exists. eauto.
Qed.

Lemma rr_step_silent_same sq sun s s' :
  rr_step seq_has_overlap_with_block sq sq sun s = (Silent, s') -> merged s' = merged s.
Proof. intros H. rr_cases H; inversion H; reflexivity. Qed.

Lemma rr_exec_pairwise sq sun n s :
  ForallOrdPairs disjoint (merged s) ->
  ForallOrdPairs disjoint
    (merged s ++ fst (rr_exec seq_has_overlap_with_block sq sq sun n (Running s))).
Proof.
  revert s. induction n as [|n IH]; intros s H; simpl; [rewrite app_nil_r; exact H|].
  destruct (rr_step seq_has_overlap_with_block sq sq sun s) as [ev s'] eqn:E.
  destruct ev; simpl; try (rewrite app_nil_r; exact H).
  - apply rr_step_yield_same in E as [Em Ed].
    destruct (rr_exec seq_has_overlap_with_block sq sq sun n (Running s')) as [o st] eqn:E2.
    simpl. specialize (IH s'). rewrite E2, Em in IH. simpl in IH.
    rewrite <- app_assoc in IH. apply IH. apply FOP_app_single; assumption.
  - apply rr_step_silent_same in E. specialize (IH s'). rewrite E in IH. apply IH, H.
Qed.

Lemma FOP_nth_error (l : list Block) :
  ForallOrdPairs disjoint l ->
  forall i j a b, i <> j -> nth_error l i = Some a -> nth_error l j = Some b ->
  disjoint a b.
Proof.
  induction l as [|x l IH]; intros H i j a b Hij Hi Hj; [destruct i; discriminate|].
  inversion H as [|? ? Hx Hl]; subst.
  destruct i as [|i], j as [|j]; simpl in Hi, Hj.
  - congruence.
  - inversion Hi; subst. apply nth_error_In in Hj.
    eapply Forall_forall in Hx; eauto.
  - inversion Hj; subst. apply nth_error_In in Hi.
    apply disjoint_sym. eapply Forall_forall in Hx; eauto.
  - apply (IH Hl i j a b); [lia | assumption | assumption].
Qed.

(** C4: with [seqs_v] defaulted to the query sequences, however long the
    generator runs, the blocks it has yielded, re-sorted by [t0], are pairwise
    non-overlapping. *)
Theorem round_robin_sorted_output_no_overlap :
  forall seqs_q sun_avoidance fuel,
  let out := sort_by_t0 (fst (round_robin seqs_q None sun_avoidance fuel)) in
  forall i j a b, i <> j -> nth_error out i = Some a -> nth_error out j = Some b ->
  block_overlap a b = false.
Proof.
  intros sq sun fuel out.
  apply FOP_nth_error.
  apply (FOP_perm _ disjoint_sym _ _ (sort_by_t0_perm _)).
  unfold round_robin, rr_start. simpl values_or. rewrite Nat.eqb_refl.
  apply (rr_exec_pairwise sq sun fuel (mkRR _ _ _ [])). constructor.
Qed.

(* ------------------------------------------------------------------ *)
(** ** Determinism of the resolver *)

(** [sun_ok] gives the same answer for two rules that agree on a block. *)
Lemma sun_ok_same_rule sq s1 s2 q b :
  same_rule_on sq s1 s2 -> In q sq -> In b q -> sun_ok s1 b = sun_ok s2 b.
Proof.
  destruct s1 as [f1|], s2 as [f2|]; simpl; intros H Hq Hb;
    try contradiction; try reflexivity.
  rewrite (H q b Hq Hb). reflexivity.
Qed.

(** The loop body applies the sun-avoidance rule only to [block_q], a block
    of a candidate query list: two rules that agree there give the same
    iteration. *)
Lemma rr_step_same_rule ovl sq sv s1 s2 s :
  same_rule_on sq s1 s2 -> rr_step ovl sq sv s1 s = rr_step ovl sq sv s2 s.
Proof.
  intros H. unfold rr_step. cbv zeta.
  destruct (all_exhausted sq (block_idx s)); [reflexivity|].
  destruct (nth_error (block_i s) (seq_i s)) as [bi|]; [|reflexivity].
  destruct (nth_error sq (seq_i s)) as [q|] eqn:Eq; [|reflexivity].
  destruct (Nat.leb (length q) bi); [reflexivity|].
  destruct (nth_error sv (seq_i s)) as [v|]; [|reflexivity].
  destruct (nth_error q bi) as [bq|] eqn:Eb; [|reflexivity].
  destruct (nth_error v bi) as [bv|]; [|reflexivity].
  rewrite (sun_ok_same_rule sq s1 s2 q bq H (nth_error_In _ _ Eq) (nth_error_In _ _ Eb)).
  reflexivity.
Qed.

Lemma rr_exec_same_rule ovl sq sv s1 s2 n :
  same_rule_on sq s1 s2 ->
  forall st, rr_exec ovl sq sv s1 n st = rr_exec ovl sq sv s2 n st.
Proof.
  intros H. induction n as [|n IH]; intros st; [reflexivity|].
  destruct st as [s| |]; simpl; try reflexivity.
  rewrite (rr_step_same_rule ovl sq sv s1 s2 s H).
  destruct (rr_step ovl sq sv s2 s) as [ev s'].
  destruct ev; try rewrite IH; reflexivity.
Qed.

(** C8: the resolver's output is a function of its inputs alone.  Two runs
    on the same candidate query lists and the same value lists, for the same
    number of iterations, yield the same blocks in the same order and reach
    the same status whenever their sun-avoidance rules agree on every block
    of the query lists (in particular when the same pure rule is used twice):
    nothing else, neither the rule's results on other blocks nor any source
    outside the arguments, enters the computation. *)
Theorem round_robin_deterministic :
  forall seqs_q seqs_v sun1 sun2 fuel,
  same_rule_on seqs_q sun1 sun2 ->
  round_robin seqs_q seqs_v sun1 fuel = round_robin seqs_q seqs_v sun2 fuel.
Proof.
  intros sq sv sun1 sun2 fuel H. unfold round_robin.
  apply rr_exec_same_rule. exact H.
Qed.

(* ------------------------------------------------------------------ *)
(** ** The relock and scan-parameter operations *)

(** C7: [ufm_relock] relocks (15 minutes, last relock set to the current
    time) exactly when no relock is recorded or more than 12 hours have passed
    since the last one; otherwise it costs nothing and leaves the state as it
    was. *)
Theorem ufm_relock_spec :
  forall minute hour state,
  let '((d, _), state') := ufm_relock minute hour state in
  ((last_ufm_relock state = None \/
    exists t, last_ufm_relock state = Some t /\ (curr_time state - t > 12 * hour)%Z) ->
   d = (15 * minute)%Z /\
   state' = mkState (curr_time state) (az_now state) (el_now state)
                    (boresight_rot_now state) (hwp_spinning state)
                    (Some (curr_time state)) (az_speed_now state) (az_accel_now state))
  /\
  (~ (last_ufm_relock state = None \/
      exists t, last_ufm_relock state = Some t /\ (curr_time state - t > 12 * hour)%Z) ->
   d = 0%Z /\ state' = state).
Proof.
  intros minute hour state. unfold ufm_relock.
  destruct (last_ufm_relock state) as [t|] eqn:E.
  - destruct (curr_time state - t >? 12 * hour)%Z eqn:C.
    + apply Z.gtb_lt in C. split; [intros _; split; reflexivity|].
      intros H. exfalso. apply H. right. exists t. split; [reflexivity | lia].
    + rewrite Z.gtb_ltb in C. apply Z.ltb_ge in C. split.
      * intros [H|[t' [H1 H2]]]; [discriminate|]. inversion H1; subst. lia.
      * intros _. split; reflexivity.
  - split; [intros _; split; reflexivity|].
    intros H. exfalso. apply H. left. reflexivity.
Qed.

(** C10: [set_scan_params] emits its command and records the new speed and
    acceleration exactly when one of them differs from the state; applied
    twice with the same arguments, the second application emits nothing and
    leaves the state unchanged. *)
Theorem set_scan_params_spec :
  forall fmt state az_speed az_accel,
  let '(cmds, state') := set_scan_params fmt state az_speed az_accel in
  ((az_speed <> az_speed_now state \/ az_accel <> az_accel_now state) ->
   cmds <> [] /\ az_speed_now state' = az_speed /\ az_accel_now state' = az_accel)
  /\
  (az_speed = az_speed_now state /\ az_accel = az_accel_now state ->
   cmds = [] /\ state' = state)
  /\
  set_scan_params fmt state' az_speed az_accel = ([], state').
Proof.
  intros fmt state sp ac. unfold set_scan_params.
  destruct (Z.eqb sp (az_speed_now state)) eqn:Es;
    destruct (Z.eqb ac (az_accel_now state)) eqn:Ea; simpl.
  - apply Z.eqb_eq in Es, Ea. split; [|split].
    + intros [H|H]; contradiction.
    + intros _. split; reflexivity.
    + rewrite <- Es, <- Ea, !Z.eqb_refl. reflexivity.
  - apply Z.eqb_neq in Ea. split; [|split].
    + intros _. split; [discriminate | split; reflexivity].
    + intros [_ H]; contradiction.
    + rewrite !Z.eqb_refl. reflexivity.
  - apply Z.eqb_neq in Es. split; [|split].
    + intros _. split; [discriminate | split; reflexivity].
    + intros [H _]; contradiction.
    + rewrite !Z.eqb_refl. reflexivity.
  - apply Z.eqb_neq in Es. split; [|split].
    + intros _. split; [discriminate | split; reflexivity].
    + intros [H _]; contradiction.
    + rewrite !Z.eqb_refl. reflexivity.
Qed.

(* ------------------------------------------------------------------ *)
(** ** Dropping blocks in the sequencer loop *)

(** The loop runs its first iteration, then the rest from where it stands. *)
Lemma seq2cmd_loop_cons tc ap st b rest :
  seq2cmd_loop tc ap st (b :: rest) =
  match seq2cmd_step tc ap st b with
  | Raises e => Raises e
  | Ok (cmds, st') =>
      match seq2cmd_loop tc ap st' rest with
      | Raises e => Raises e
      | Ok (cmds', st'') => Ok (cmds ++ cmds', st'')
      end
  end.
Proof. reflexivity. Qed.




(* ------------------------------------------------------------------ *)
(** ** Merging specs with [get_spec] *)


Lemma insert_by_key_perm {A} (kv : string * A) l : Permutation (kv :: l) (insert_by_key kv l).
Proof.
  induction l as [|x l IH]; simpl; [reflexivity|].
  destruct (String.leb (fst kv) (fst x)); [reflexivity|].
  eapply perm_trans; [apply perm_swap|]. constructor. exact IH.
Qed.

Lemma sort_keys_perm {A} (l : list (string * A)) : Permutation l (sort_keys l).
Proof.
  induction l as [|x l IH]; simpl; [reflexivity|].
  eapply perm_trans; [constructor; exact IH | apply insert_by_key_perm].
Qed.

(** The flattened leaves are exactly the leaves of the tree, with their paths. *)
Lemma spec_leaves_in t :
  forall path q s,
  In (q, s) (spec_leaves path t) <-> exists p, q = path ++ p /\ leaf_at t p s.
Proof.
  induction t as [s0|kvs IH] using specs_tree_ind; intros path q s; simpl.
  - split.
    + intros [H|[]]. inversion H; subst. exists []. rewrite app_nil_r. split; constructor.
    + intros [p [-> H]]. inversion H; subst. left. rewrite app_nil_r. reflexivity.
  - rewrite in_concat. split.
    + intros [l [Hl Hin]].
      apply in_map_iff in Hl as [[k ls] [<- Hk]]. simpl in Hin.
      apply (Permutation_in _ (Permutation_sym (sort_keys_perm _))) in Hk.
      apply in_map_iff in Hk as [[k' t'] [E Hkt]]. simpl in E.
      injection E as E1 E2. subst k ls.
      rewrite Forall_forall in IH. apply (IH _ Hkt) in Hin as [p [-> Hp]].
      exists (k' :: p). rewrite <- app_assoc. split; [reflexivity|].
      econstructor; eassumption.
    + intros [p [-> H]]. inversion H as [|kvs' k t' p' s' Hkt Hp]; subst.
      exists (spec_leaves (path ++ [k]) t'). split.
      * apply in_map_iff. exists (k, spec_leaves (path ++ [k]) t'). split; [reflexivity|].
        apply (Permutation_in _ (sort_keys_perm _)).
        apply in_map_iff. exists (k, t'). split; [reflexivity | exact Hkt].
      * rewrite Forall_forall in IH. apply (IH _ Hkt). exists p'.
        rewrite <- app_assoc. split; [reflexivity | exact Hp].
Qed.

(** A spec is among [all_matches] iff it is a leaf whose path matches. *)
Lemma all_matches_in specs query s :
  In s (all_matches specs query) <->
  exists p, leaf_at specs p s /\ match_p query (path2key p) = true.
Proof.
  unfold all_matches. rewrite in_map_iff. split.
  - intros [[q s'] [E Hin]]. simpl in E. subst s'.
    apply filter_In in Hin as [Hin Hm]. simpl in Hm.
    apply spec_leaves_in in Hin as [p [-> Hp]]. exists p. split; assumption.
  - intros [p [Hp Hm]]. exists (p, s). split; [reflexivity|].
    apply filter_In. split; [|exact Hm].
    apply spec_leaves_in. exists p. split; [reflexivity | exact Hp].
Qed.

Lemma fold_reduce_proj (f : Spec -> Z) (g : Z -> Z -> Z) :
  (forall a b, f (reduce_fn a b) = g (f a) (f b)) ->
  forall ms acc, f (fold_left reduce_fn ms acc) = fold_left g (map f ms) (f acc).
Proof.
  intros Hg ms. induction ms as [|m ms IH]; intros acc; simpl; [reflexivity|].
  rewrite IH, Hg. reflexivity.
Qed.

Lemma fold_min_le l a : forall x, In x (a :: l) -> (fold_left Z.min l a <= x)%Z.
Proof.
  revert a. induction l as [|b l IH]; intros a x Hx; simpl in *.
  - destruct Hx as [->|[]]. lia.
  - specialize (IH (Z.min a b)). destruct Hx as [->|[->|Hx]].
    + enough (fold_left Z.min l (Z.min x b) <= Z.min x b)%Z by lia. apply IH; left; auto.
    + enough (fold_left Z.min l (Z.min a x) <= Z.min a x)%Z by lia. apply IH; left; auto.
    + apply IH. right. exact Hx.
Qed.

Lemma fold_min_in l a : In (fold_left Z.min l a) (a :: l).
Proof.
  revert a. induction l as [|b l IH]; intros a; simpl; [left; reflexivity|].
  destruct (IH (Z.min a b)) as [E|E]; [|right; right; exact E].
  rewrite <- E. destruct (Z.min_spec a b) as [[_ ->]|[_ ->]]; auto.
Qed.

Lemma fold_max_ge l a : forall x, In x (a :: l) -> (x <= fold_left Z.max l a)%Z.
Proof.
  revert a. induction l as [|b l IH]; intros a x Hx; simpl in *.
  - destruct Hx as [->|[]]. lia.
  - specialize (IH (Z.max a b)). destruct Hx as [->|[->|Hx]].
    + enough (Z.max x b <= fold_left Z.max l (Z.max x b))%Z by lia. apply IH; left; auto.
    + enough (Z.max a x <= fold_left Z.max l (Z.max a x))%Z by lia. apply IH; left; auto.
    + apply IH. right. exact Hx.
Qed.

Lemma fold_max_in l a : In (fold_left Z.max l a) (a :: l).
Proof.
  revert a. induction l as [|b l IH]; intros a; simpl; [left; reflexivity|].
  destruct (IH (Z.max a b)) as [E|E]; [|right; right; exact E].
  rewrite <- E. destruct (Z.max_spec a b) as [[_ ->]|[_ ->]]; auto.
Qed.

Lemma in_map_cons (f : Spec -> Z) m ms z :
  In z (f m :: map f ms) -> exists x, In x (m :: ms) /\ z = f x.
Proof.
  intros H. change (f m :: map f ms) with (map f (m :: ms)) in H.
  apply in_map_iff in H as [x [<- Hx]]. eauto.
Qed.

(** Reducing a non-empty list of specs gives their merge. *)
Lemma fold_reduce_is_merge m ms :
  is_merge (fun x => In x (m :: ms)) (fold_left reduce_fn ms m).
Proof.
  unfold is_merge.
  rewrite (fold_reduce_proj (fun s => fst (bounds_x s)) Z.min (fun _ _ => eq_refl)).
  rewrite (fold_reduce_proj (fun s => snd (bounds_x s)) Z.max (fun _ _ => eq_refl)).
  rewrite (fold_reduce_proj (fun s => fst (bounds_y s)) Z.min (fun _ _ => eq_refl)).
  rewrite (fold_reduce_proj (fun s => snd (bounds_y s)) Z.max (fun _ _ => eq_refl)).
  split; [|split; [|split; [|split]]].
  - intros x Hx.
    split; [|split; [|split]].
    + apply fold_min_le. exact (in_map (fun s => fst (bounds_x s)) (m :: ms) x Hx).
    + apply fold_max_ge. exact (in_map (fun s => snd (bounds_x s)) (m :: ms) x Hx).
    + apply fold_min_le. exact (in_map (fun s => fst (bounds_y s)) (m :: ms) x Hx).
    + apply fold_max_ge. exact (in_map (fun s => snd (bounds_y s)) (m :: ms) x Hx).
  - apply in_map_cons, fold_min_in.
  - apply in_map_cons, fold_max_in.
  - apply in_map_cons, fold_min_in.
  - apply in_map_cons, fold_max_in.
Qed.

Lemma is_merge_unique P r1 r2 : is_merge P r1 -> is_merge P r2 -> r1 = r2.
Proof.
  intros [L1 [A1 [B1 [C1 D1]]]] [L2 [A2 [B2 [C2 D2]]]].
  destruct A1 as [a1 [Pa1 Ea1]], B1 as [b1 [Pb1 Eb1]], C1 as [c1 [Pc1 Ec1]],
           D1 as [d1 [Pd1 Ed1]], A2 as [a2 [Pa2 Ea2]], B2 as [b2 [Pb2 Eb2]],
           C2 as [c2 [Pc2 Ec2]], D2 as [d2 [Pd2 Ed2]].
  pose proof (L1 a2 Pa2). pose proof (L2 a1 Pa1). pose proof (L1 b2 Pb2).
  pose proof (L2 b1 Pb1). pose proof (L1 c2 Pc2). pose proof (L2 c1 Pc1).
  pose proof (L1 d2 Pd2). pose proof (L2 d1 Pd1).
  destruct r1 as [[x1 x1'] [y1 y1']], r2 as [[x2 x2'] [y2 y2']]. simpl in *.
  f_equal; f_equal; lia.
Qed.

Lemma is_merge_ext (P Q : Spec -> Prop) r :
  (forall x, P x <-> Q x) -> is_merge P r -> is_merge Q r.
Proof.
  intros H [L [[a [Pa Ea]] [[b [Pb Eb]] [[c [Pc Ec]] [d [Pd Ed]]]]]].
  split; [intros x Qx; apply L, H, Qx|].
  split; [exists a; split; [apply H|]; assumption|].
  split; [exists b; split; [apply H|]; assumption|].
  split; [exists c; split; [apply H|]; assumption|].
  exists d; split; [apply H|]; assumption.
Qed.

(** C9: [get_spec] with [merge=True] returns [{}] exactly when no leaf's
    dot-joined path contains a query string; otherwise it returns one spec
    whose [bounds_x] and [bounds_y] are the componentwise minimum of the
    matching leaves' lower bounds and maximum of their upper bounds; and
    reducing the matches in any other order gives the same result. *)
Theorem get_spec_merge_spec :
  forall specs query,
  (get_spec specs query = None <->
   forall p s, leaf_at specs p s -> match_p query (path2key p) = false)
  /\ (forall r, get_spec specs query = Some r -> is_merge (matching_leaf specs query) r)
  /\ (forall ms, Permutation (all_matches specs query) ms ->
      reduce_specs ms = get_spec specs query).
Proof.
  intros specs query. unfold get_spec.
  split; [|split].
  - destruct (all_matches specs query) as [|m ms] eqn:E; simpl; split.
    + intros _ p s Hp. destruct (match_p query (path2key p)) eqn:Hm; [|reflexivity].
      exfalso. assert (Hin : In s (all_matches specs query))
        by (apply all_matches_in; eauto). rewrite E in Hin. exact Hin.
    + reflexivity.
    + discriminate.
    + intros H. exfalso.
      assert (Hin : In m (all_matches specs query)) by (rewrite E; left; reflexivity).
      apply all_matches_in in Hin as [p [Hp Hm]]. rewrite (H p m Hp) in Hm. discriminate.
  - intros r. destruct (all_matches specs query) as [|m ms] eqn:E; simpl; [discriminate|].
    intros H. inversion H; subst r.
    apply (is_merge_ext (fun x => In x (m :: ms))).
    + intros x. rewrite <- E. apply all_matches_in.
    + apply fold_reduce_is_merge.
  - intros ms' HP. destruct (all_matches specs query) as [|m ms] eqn:E.
    + apply Permutation_nil in HP. subst ms'. reflexivity.
    + destruct ms' as [|m' ms'].
      { apply Permutation_sym, Permutation_nil in HP. discriminate. }
      simpl. f_equal. apply (is_merge_unique (fun x => In x (m :: ms))).
      * apply (is_merge_ext (fun x => In x (m' :: ms'))).
        -- intros x. split; apply Permutation_in; [apply Permutation_sym|]; exact HP.
        -- apply fold_reduce_is_merge.
      * apply fold_reduce_is_merge.
Qed.

(* ------------------------------------------------------------------ *)
(** ** Witnesses *)

(** The hypotheses of [round_robin_sorted_output_no_overlap] hold on
    scenario A: the sorted output has [[1,2]] at index 0 and [[3,4]] at 1. *)
Lemma round_robin_sorted_output_no_overlap_witness :
  (1 <> 0)%nat
  /\ nth_error (sort_by_t0 (fst (round_robin scenario_A_q None None 10))) 1 = Some (B 3 4)
  /\ nth_error (sort_by_t0 (fst (round_robin scenario_A_q None None 10))) 0 = Some (B 1 2)
  /\ block_overlap (B 3 4) (B 1 2) = false.
Proof.
  split; [lia|]. split; [vm_compute; reflexivity|]. split; [vm_compute; reflexivity|].
  apply (round_robin_sorted_output_no_overlap scenario_A_q None 10 1 0);
    [lia | vm_compute; reflexivity | vm_compute; reflexivity].
Defined.

(** The hypothesis of [round_robin_deterministic] holds for two different
    rules on scenario B: the identity and a rule that moves only blocks
    starting at 100, which no query block does. *)
Lemma round_robin_deterministic_witness :
  same_rule_on scenario_B_q (Some (fun b => b)) (Some shift_at_100)
  /\ round_robin scenario_B_q (Some scenario_B_v) (Some (fun b => b)) 8
     = round_robin scenario_B_q (Some scenario_B_v) (Some shift_at_100) 8.
Proof.
  assert (H : same_rule_on scenario_B_q (Some (fun b => b)) (Some shift_at_100)).
  { intros q b Hq Hb. simpl in Hq.
    repeat (destruct Hq as [<-|Hq];
            [simpl in Hb; repeat (destruct Hb as [<-|Hb]; [reflexivity|]); contradiction|]).
    contradiction. }
  split; [exact H|].
  apply (round_robin_deterministic scenario_B_q (Some scenario_B_v) _ _ 8 H).
Defined.


(* ------------------------------------------------------------------ *)
(** ** Further properties of the resolver *)

Lemma rr_exec_finished n : forall ovl sq sv sun, rr_exec ovl sq sv sun n Finished = ([], Finished).
Proof. destruct n; reflexivity. Qed.

Lemma rr_exec_failed n : forall ovl sq sv sun, rr_exec ovl sq sv sun n Failed = ([], Failed).
Proof. destruct n; reflexivity. Qed.

(** [==] on blocks is equality. *)
Lemma block_eqb_true a b : block_eqb a b = true -> a = b.
Proof.
  destruct a as [a0 a1], b as [b0 b1]; unfold block_eqb; simpl; intros H.
  apply andb_prop in H as [H1 H2]. apply Z.eqb_eq in H1, H2. subst. reflexivity.
Qed.

(** A rule that changes every query block makes every iteration that reaches
    the test reject its block: no iteration yields. *)
Lemma rr_step_rule_rejecting_all ovl sq sv f s :
  (forall q b, In q sq -> In b q -> f b <> b) ->
  forall b s', rr_step ovl sq sv (Some f) s <> (Yield b, s').
Proof.
  intros Hf b s'. unfold rr_step. cbv zeta.
  destruct (all_exhausted sq (block_idx s)); [discriminate|].
  destruct (nth_error (block_i s) (seq_i s)) as [bi|]; [|discriminate].
  destruct (nth_error sq (seq_i s)) as [q|] eqn:Eq; [|discriminate].
  destruct (Nat.leb (length q) bi); [discriminate|].
  destruct (nth_error sv (seq_i s)) as [v|]; [|discriminate].
  destruct (nth_error q bi) as [bq|] eqn:Eb; [|discriminate].
  destruct (nth_error v bi) as [bv|]; [|discriminate].
  assert (Hs : sun_ok (Some f) bq = false).
  { simpl. destruct (block_eqb bq (f bq)) eqn:E; [|reflexivity].
    exfalso. apply (Hf q bq (nth_error_In _ _ Eq) (nth_error_In _ _ Eb)).
    symmetry. apply block_eqb_true. exact E. }
  rewrite Hs, andb_false_r.
  destruct (incr_at (seq_i s) (block_i s)); discriminate.
Qed.

Lemma rr_exec_rule_rejecting_all ovl sq sv f n :
  (forall q b, In q sq -> In b q -> f b <> b) ->
  forall st, fst (rr_exec ovl sq sv (Some f) n st) = [].
Proof.
  intros Hf. induction n as [|n IH]; intros st; [reflexivity|].
  destruct st as [s| |]; simpl; try reflexivity.
  destruct (rr_step ovl sq sv (Some f) s) as [ev s'] eqn:E.
  destruct ev; simpl; try reflexivity.
  - exfalso. exact (rr_step_rule_rejecting_all ovl sq sv f s Hf b s' E).
  - apply IH.
Qed.

(** X6: when the sun-avoidance rule changes every block of the candidate query lists, no block passes the test [block_q == sun_avoidance(block_q)]: the generator yields nothing, however long it runs. *)
Theorem round_robin_rule_rejecting_all_yields_nothing :
  forall seqs_q seqs_v f fuel,
  (forall q b, In q seqs_q -> In b q -> f b <> b) ->
  fst (round_robin seqs_q seqs_v (Some f) fuel) = [].
Proof.
  intros sq sv f fuel Hf. unfold round_robin.
  apply rr_exec_rule_rejecting_all. exact Hf.
Qed.

(** X1: with no candidate lists, the generator returns at its first iteration without yielding anything; if [seqs_v] is given and non-empty, the length assertion fails instead. *)
Theorem round_robin_empty_input :
  forall seqs_v sun_avoidance k,
  round_robin [] seqs_v sun_avoidance (S k)
  = ([], match values_or [] seqs_v with [] => Finished | _ :: _ => Failed end).
Proof.
  intros [v|] sun k; [destruct v|]; reflexivity.
Qed.

(** X2: when [seqs_v] is given with a length different from [seqs_q], the length assertion fails before any block is yielded, however long the generator is run. *)
Theorem round_robin_length_mismatch_fails :
  forall seqs_q seqs_v sun_avoidance fuel,
  length seqs_v <> length seqs_q ->
  round_robin seqs_q (Some seqs_v) sun_avoidance fuel = ([], Failed).
Proof.
  intros sq sv sun fuel H. unfold round_robin, rr_start. simpl.
  destruct (Nat.eqb (length sq) (length sv)) eqn:E.
  - apply Nat.eqb_eq in E. congruence.
  - apply rr_exec_failed.
Qed.

(** [block_i[i] += 1] succeeds on an index in range and keeps the length. *)
Lemma incr_at_some i l :
  i < length l -> exists l', incr_at i l = Some l' /\ length l' = length l.
Proof.
  revert i. induction l as [|x l IH]; intros i Hi; simpl in Hi; [lia|].
  destruct i as [|i]; simpl.
  - eexists; split; reflexivity.
  - destruct (IH i ltac:(lia)) as [l' [-> Hl]]. simpl. eexists; split; [reflexivity|].
    simpl. lia.
Qed.

Lemma Forall2_nth_error_l {A B} (R : A -> B -> Prop) l1 l2 i a :
  Forall2 R l1 l2 -> nth_error l1 i = Some a -> exists b, nth_error l2 i = Some b /\ R a b.
Proof.
  intros H. revert i. induction H as [|x y l1 l2 Hxy _ IH]; intros i Hi;
    [destruct i; discriminate|].
  destruct i as [|i]; simpl in Hi |- *.
  - inversion Hi; subst. eauto.
  - apply IH, Hi.
Qed.

Lemma all_exhausted_nil idx : all_exhausted [] idx = true.
Proof. reflexivity. Qed.

(** With value lists at least as long as the query lists, one iteration never
    raises and keeps the cursors in range. *)
Lemma rr_step_no_raise ovl sq sv sun s :
  Forall2 (fun q v => length q <= length v) sq sv -> rr_inv sq s ->
  fst (rr_step ovl sq sv sun s) <> Raise /\ rr_inv sq (snd (rr_step ovl sq sv sun s)).
Proof.
  intros HF [Hlen Hi]. unfold rr_step. cbv zeta.
  destruct (all_exhausted sq (block_idx s)) eqn:Ex.
  { split; [discriminate | split; assumption]. }
  assert (Hi' : seq_i s < length sq).
  { destruct Hi as [Hi | ->]; [exact Hi | rewrite all_exhausted_nil in Ex; discriminate]. }
  assert (Hn : length sq <> 0) by lia.
  destruct (nth_error (block_i s) (seq_i s)) as [bi|] eqn:E1.
  2:{ apply nth_error_None in E1. lia. }
  destruct (nth_error sq (seq_i s)) as [q|] eqn:E2.
  2:{ apply nth_error_None in E2. lia. }
  destruct (Nat.leb (length q) bi) eqn:E3.
  { split; [discriminate|]. split; [exact Hlen|]. left. apply Nat.mod_upper_bound, Hn. }
  apply Nat.leb_gt in E3.
  destruct (Forall2_nth_error_l _ _ _ _ _ HF E2) as [v [E4 Hqv]]. rewrite E4.
  destruct (nth_error q bi) as [bq|] eqn:E5.
  2:{ apply nth_error_None in E5. lia. }
  destruct (nth_error v bi) as [bv|] eqn:E6.
  2:{ apply nth_error_None in E6. lia. }
  destruct (negb (ovl (merged s) bq) && sun_ok sun bq).
  - destruct (incr_at_some (Nat.modulo (S (seq_i s)) (length sq)) (block_i s)) as [l' [E7 Hl']].
    { rewrite Hlen. apply Nat.mod_upper_bound, Hn. }
    rewrite E7. split; [discriminate|]. split; [simpl; lia|].
    left. apply Nat.mod_upper_bound, Hn.
  - destruct (incr_at_some (seq_i s) (block_i s)) as [l' [E7 Hl']]; [lia|].
    rewrite E7. split; [discriminate|]. split; [simpl; lia | left; exact Hi'].
Qed.

(** X3: when every value list is at least as long as its query list (in particular when [seqs_v] is omitted), the generator never fails: the length assertion holds and no list is ever indexed out of range. *)
Theorem round_robin_never_raises :
  forall seqs_q seqs_v sun_avoidance fuel,
  Forall2 (fun q v => length q <= length v) seqs_q (values_or seqs_q seqs_v) ->
  snd (round_robin seqs_q seqs_v sun_avoidance fuel) <> Failed.
Proof.
  intros sq sv sun fuel HF. unfold round_robin, rr_start.
  set (v := values_or sq sv) in *.
  rewrite <- (Forall2_length HF), Nat.eqb_refl.
  assert (Hinv : rr_inv sq (mkRR (repeat 0 (length sq)) 0 (repeat 0 (length sq)) [])).
  { unfold rr_inv; simpl. rewrite repeat_length.
    split; [reflexivity|]. destruct sq; [right; reflexivity | left; simpl; lia]. }
  revert Hinv. generalize (mkRR (repeat 0 (length sq)) 0 (repeat 0 (length sq)) []).
  induction fuel as [|fuel IH]; intros s Hinv; simpl; [discriminate|].
  destruct (rr_step_no_raise seq_has_overlap_with_block sq v sun s HF Hinv) as [Hr Hi].
  destruct (rr_step seq_has_overlap_with_block sq v sun s) as [ev s'].
  simpl in Hr, Hi. destruct ev.
  - specialize (IH s' Hi). destruct (rr_exec _ _ _ _ fuel (Running s')). exact IH.
  - exact (IH s' Hi).
  - discriminate.
  - contradiction.
Qed.

(** A yielded block is read from a value list. *)
Lemma rr_step_yield_from_values ovl sq sv sun s b s' :
  rr_step ovl sq sv sun s = (Yield b, s') -> exists v, In v sv /\ In b v.
Proof.
  intros H. unfold rr_step in H. cbv zeta in H.
  destruct (all_exhausted sq (block_idx s)); [discriminate|].
  destruct (nth_error (block_i s) (seq_i s)) as [bi|]; [|discriminate].
  destruct (nth_error sq (seq_i s)) as [q|]; [|discriminate].
  destruct (Nat.leb (length q) bi); [discriminate|].
  destruct (nth_error sv (seq_i s)) as [v|] eqn:E4; [|discriminate].
  destruct (nth_error q bi) as [bq|]; [|discriminate].
  destruct (nth_error v bi) as [bv|] eqn:E6; [|discriminate].
  destruct (negb (ovl (merged s) bq) && sun_ok sun bq).
  - destruct (incr_at _ (block_i s)); inversion H; subst.
    exists v. split; eapply nth_error_In; eassumption.
  - destruct (incr_at (seq_i s) (block_i s)); discriminate.
Qed.

(** X4: every block the generator yields is an element of one of the value lists ([seqs_v], or [seqs_q] when [seqs_v] is omitted). *)
Theorem round_robin_yields_from_values :
  forall seqs_q seqs_v sun_avoidance fuel b,
  In b (fst (round_robin seqs_q seqs_v sun_avoidance fuel)) ->
  exists v, In v (values_or seqs_q seqs_v) /\ In b v.
Proof.
  intros sq sv sun fuel b. unfold round_robin.
  generalize (rr_start sq (values_or sq sv)).
  induction fuel as [|fuel IH]; intros st H; [destruct st; contradiction|].
  destruct st as [s| |]; simpl in H; try contradiction.
  destruct (rr_step seq_has_overlap_with_block sq (values_or sq sv) sun s) as [ev s'] eqn:E.
  destruct ev.
  - destruct (rr_exec _ _ _ _ fuel (Running s')) as [o st'] eqn:E2.
    destruct H as [<-|H].
    + eapply rr_step_yield_from_values; eassumption.
    + apply (IH (Running s')). rewrite E2. exact H.
  - exact (IH _ H).
  - contradiction.
  - contradiction.
Qed.

(** X5: with [seqs_v] omitted, the generator is exhausted after its first iteration exactly when every candidate list is empty. *)
Theorem round_robin_finished_iff_all_empty :
  forall seqs_q sun_avoidance k,
  snd (round_robin seqs_q None sun_avoidance (S k)) = Finished
  <-> Forall (fun q => q = []) seqs_q.
Proof.
  intros sq sun k. split.
  - intros H. apply Forall_forall.
    destruct (round_robin sq None sun (S k)) as [out st] eqn:E. simpl in H. subst st.
    exact (round_robin_finished_only_if_empty sq None sun (S k) out E).
  - intros H. unfold round_robin, rr_start. simpl values_or. rewrite Nat.eqb_refl.
    assert (Hx : all_exhausted sq (repeat 0 (length sq)) = true).
    { unfold all_exhausted. apply forallb_forall. intros i Hi.
      apply in_seq in Hi. rewrite nth_repeat.
      assert (Hq : nth i sq [] = []).
      { rewrite Forall_forall in H. apply H, nth_In. lia. }
      rewrite Hq. reflexivity. }
    simpl. unfold rr_step at 1. simpl block_idx. rewrite Hx. reflexivity.
Qed.

(* ------------------------------------------------------------------ *)
(** ** Further properties of the sequencer loop *)

(** An iteration on a ["cal"] block raises, from any locals. *)
Lemma seq2cmd_step_cal_raises tc ap st block :
  sb_subtype block = "cal"%string -> exists e, seq2cmd_step tc ap st block = Raises e.
Proof.
  intros Hc.
  assert (E1 : String.eqb (sb_subtype block) "cmb" = false) by (rewrite Hc; reflexivity).
  assert (E2 : String.eqb (sb_subtype block) "cal" = true) by (rewrite Hc; reflexivity).
  unfold seq2cmd_step. cbv zeta. rewrite E1, E2. cbn [andb].
  destruct (is_hwp_spinning st); eexists; reflexivity.
Qed.

(** An iteration on a block that is neither ["cmb"] nor ["cal"] only moves the
    clock. *)
Lemma seq2cmd_step_other tc ap st block :
  sb_subtype block <> "cmb"%string -> sb_subtype block <> "cal"%string ->
  seq2cmd_step tc ap st block
  = Ok ([], mkSeqState (sb_t1 block + tc_bias_step tc)%Z
                       (is_det_setup st) (is_hwp_spinning st) (cur_boresight_angle st)).
Proof.
  intros H1 H2.
  assert (E1 : String.eqb (sb_subtype block) "cmb" = false)
    by (apply String.eqb_neq; exact H1).
  assert (E2 : String.eqb (sb_subtype block) "cal" = false)
    by (apply String.eqb_neq; exact H2).
  unfold seq2cmd_step. cbv zeta. rewrite E1, E2. reflexivity.
Qed.

(** With the detectors not set up and the HWP stopped, an iteration that does
    not raise was on a block other than ["cal"]; it emits a skip note for a
    ["cmb"] block and nothing otherwise, and keeps both flags and the
    boresight angle. *)
Lemma seq2cmd_step_unset tc ap st block cmds st' :
  is_det_setup st = false -> is_hwp_spinning st = false ->
  seq2cmd_step tc ap st block = Ok (cmds, st') ->
  sb_subtype block <> "cal"%string
  /\ cmds = (if String.eqb (sb_subtype block) "cmb" then [SkipNote block] else [])
  /\ is_det_setup st' = false /\ is_hwp_spinning st' = false
  /\ cur_boresight_angle st' = cur_boresight_angle st.
Proof.
  intros Hd Hs. unfold seq2cmd_step. cbv zeta.
  destruct (String.eqb (sb_subtype block) "cmb") eqn:Ecmb;
    destruct (String.eqb (sb_subtype block) "cal") eqn:Ecal; cbn [andb].
  - apply String.eqb_eq in Ecmb. apply String.eqb_eq in Ecal.
    rewrite Ecmb in Ecal. discriminate Ecal.
  - apply String.eqb_neq in Ecal.
    destruct (t_cur st + setup_time tc st block >? sb_t1 block)%Z.
    + intros H. injection H as <- <-. repeat split; auto.
    + rewrite Hd. intros H. simpl in H. discriminate H.
  - rewrite Hs. intros H. simpl in H. discriminate H.
  - apply String.eqb_neq in Ecal. intros H. injection H as <- <-.
    cbn [is_det_setup is_hwp_spinning cur_boresight_angle]. repeat split; auto.
Qed.

(** With the detectors not set up and the HWP stopped, an iteration can only
    raise the [AttributeError] of [det_setup(block.az, block.alt, t_start)]. *)
Lemma seq2cmd_step_unset_raises tc ap st block e :
  is_det_setup st = false -> is_hwp_spinning st = false ->
  seq2cmd_step tc ap st block = Raises e -> e = AttributeError.
Proof.
  intros Hd Hs. unfold seq2cmd_step. cbv zeta.
  destruct (String.eqb (sb_subtype block) "cmb");
    destruct (String.eqb (sb_subtype block) "cal"); cbn [andb negb];
    try destruct (t_cur st + setup_time tc st block >? sb_t1 block)%Z;
    rewrite ?Hd, ?Hs; cbn [negb]; intros H; inversion H; reflexivity.
Qed.

(** [last] of a non-empty list does not depend on its default. *)
Lemma last_cons_default {A} (x : A) l d : last (x :: l) d = last l x.
Proof.
  revert x d. induction l as [|y l IH]; intros x d; [reflexivity|].
  change (last (y :: l) d = last (y :: l) x). rewrite !IH. reflexivity.
Qed.

(** X7: a sequence holding a block of subtype "cal" never gets through the block loop of [seq2cmd]: whatever the locals it starts from, the time costs and the other blocks, the loop raises ([TypeError] at [commands += hwp_spin_down] if the HWP spins, [AttributeError] at [det_setup(block.az, block.alt, t_start)] otherwise), at the latest on the first "cal" block. *)
Theorem seq2cmd_loop_cal_block_raises :
  forall time_costs apply_boresight_rot st seq block,
  In block seq -> sb_subtype block = "cal"%string ->
  exists e, seq2cmd_loop time_costs apply_boresight_rot st seq = Raises e.
Proof.
  intros tc ap st seq block Hin Hc. revert st.
  induction seq as [|b rest IH]; intros st; [destruct Hin|].
  rewrite seq2cmd_loop_cons.
  destruct Hin as [->|Hin].
  - destruct (seq2cmd_step_cal_raises tc ap st block Hc) as [e E].
    rewrite E. exists e. reflexivity.
  - destruct (seq2cmd_step tc ap st b) as [[c1 s1]|e]; [|exists e; reflexivity].
    destruct (IH Hin s1) as [e E]. rewrite E. exists e. reflexivity.
Qed.

(** X8: started as [seq2cmd] starts it (detectors not set up, HWP not spinning), the block loop gets through a sequence only if the sequence holds no "cal" block and every "cmb" block is dropped as late; its commands are then exactly one skip note per "cmb" block, in sequence order, so it never emits a scan, a wait or a boresight command, and both flags and the boresight angle end as they started. *)
Theorem seq2cmd_loop_completes_only_skipping :
  forall time_costs apply_boresight_rot t bore seq cmds st',
  seq2cmd_loop time_costs apply_boresight_rot (mkSeqState t false false bore) seq
    = Ok (cmds, st') ->
  Forall (fun b => sb_subtype b <> "cal"%string) seq
  /\ cmds = map SkipNote (filter (fun b => String.eqb (sb_subtype b) "cmb") seq)
  /\ is_det_setup st' = false /\ is_hwp_spinning st' = false
  /\ cur_boresight_angle st' = bore.
Proof.
  intros tc ap t bore seq. revert t.
  induction seq as [|b rest IH]; intros t cmds st' H.
  - injection H as <- <-. repeat split; constructor.
  - rewrite seq2cmd_loop_cons in H.
    destruct (seq2cmd_step tc ap (mkSeqState t false false bore) b) as [[c1 s1]|e] eqn:E1;
      [|discriminate].
    destruct (seq2cmd_step_unset tc ap (mkSeqState t false false bore) b c1 s1 eq_refl eq_refl E1)
      as (Hc & Hcmds & Hd & Hs & Hb).
    destruct s1 as [t1' d1 sp1 b1]. cbn [is_det_setup is_hwp_spinning cur_boresight_angle] in Hd, Hs, Hb.
    subst d1 sp1 b1.
    destruct (seq2cmd_loop tc ap (mkSeqState t1' false false bore) rest) as [[c2 s2]|e] eqn:E2;
      [|discriminate].
    injection H as <- <-.
    destruct (IH t1' c2 s2 E2) as (HF & Hc2 & Hd2 & Hs2 & Hb2).
    split; [constructor; assumption|]. split; [|exact (conj Hd2 (conj Hs2 Hb2))].
    rewrite Hcmds, Hc2. simpl. destruct (String.eqb (sb_subtype b) "cmb"); reflexivity.
Qed.

(** X9: started as [seq2cmd] starts it, the block loop never reaches the [TypeError] of [commands += hwp_spin_up] or [commands += hwp_spin_down]: the HWP flag never becomes true, and whenever the loop raises, the exception is the [AttributeError] of [det_setup(block.az, block.alt, t_start)]. *)
Theorem seq2cmd_loop_raises_attribute_error :
  forall time_costs apply_boresight_rot t bore seq e,
  seq2cmd_loop time_costs apply_boresight_rot (mkSeqState t false false bore) seq
    = Raises e ->
  e = AttributeError.
Proof.
  intros tc ap t bore seq e. revert t.
  induction seq as [|b rest IH]; intros t H; [discriminate|].
  rewrite seq2cmd_loop_cons in H.
  destruct (seq2cmd_step tc ap (mkSeqState t false false bore) b) as [[c1 s1]|e1] eqn:E1.
  - destruct (seq2cmd_step_unset tc ap (mkSeqState t false false bore) b c1 s1 eq_refl eq_refl E1)
      as (_ & _ & Hd & Hs & Hb).
    destruct s1 as [t1' d1 sp1 b1]. cbn [is_det_setup is_hwp_spinning cur_boresight_angle] in Hd, Hs, Hb.
    subst d1 sp1 b1.
    destruct (seq2cmd_loop tc ap (mkSeqState t1' false false bore) rest) as [[c2 s2]|e2] eqn:E2;
      [discriminate|].
    injection H as <-. exact (IH t1' E2).
  - injection H as <-. exact (seq2cmd_step_unset_raises tc ap (mkSeqState t false false bore) b e1 eq_refl eq_refl E1).
Qed.

(** X10: a sequence with no block of subtype "cmb" or "cal" gets through the block loop of [seq2cmd] from any locals: no command is emitted, the detector, HWP and boresight locals are untouched, and [t_cur] ends at the last block's [t1] plus the bias-step cost (unchanged for an empty sequence). *)
Theorem seq2cmd_loop_other_subtypes_emit_nothing :
  forall time_costs apply_boresight_rot st seq,
  Forall (fun b => sb_subtype b <> "cmb"%string /\ sb_subtype b <> "cal"%string) seq ->
  seq2cmd_loop time_costs apply_boresight_rot st seq
  = Ok ([], mkSeqState (last (map (fun b => sb_t1 b + tc_bias_step time_costs)%Z seq)
                             (t_cur st))
                       (is_det_setup st) (is_hwp_spinning st) (cur_boresight_angle st)).
Proof.
  intros tc ap [t d s bore] seq HF. revert t.
  induction HF as [|b rest [H1 H2] HF IH]; intros t; [reflexivity|].
  rewrite seq2cmd_loop_cons, (seq2cmd_step_other tc ap _ b H1 H2).
  cbn [is_det_setup is_hwp_spinning cur_boresight_angle t_cur].
  rewrite IH. cbn [t_cur is_det_setup is_hwp_spinning cur_boresight_angle map app].
  rewrite last_cons_default. reflexivity.
Qed.

(** X11: with non-negative time costs, the setup time the loop computes for a "cal" block is never less than for a "cmb" block from the same locals: a calibration always counts the detector setup and, when the HWP spins, a spin-down and a spin-up. *)
Theorem setup_time_cal_ge_cmb :
  forall time_costs st bcal bcmb,
  (0 <= tc_det_setup time_costs)%Z -> (0 <= tc_hwp_spin_up time_costs)%Z ->
  (0 <= tc_hwp_spin_down time_costs)%Z ->
  sb_subtype bcal = "cal"%string -> sb_subtype bcmb = "cmb"%string ->
  (setup_time time_costs st bcmb <= setup_time time_costs st bcal)%Z.
Proof.
  intros tc st bcal bcmb Hd Hu Hdn Hcal Hcmb.
  assert (E1 : String.eqb (sb_subtype bcal) "cal" = true) by (rewrite Hcal; reflexivity).
  assert (E2 : String.eqb (sb_subtype bcmb) "cal" = false) by (rewrite Hcmb; reflexivity).
  unfold setup_time. cbv zeta. rewrite E1, E2.
  destruct (is_det_setup st), (is_hwp_spinning st); cbn [negb orb andb]; lia.
Qed.

(* ------------------------------------------------------------------ *)
(** ** Further properties of [get_spec] *)

Lemma filter_all_false {A} (f : A -> bool) l : (forall x, f x = false) -> filter f l = [].
Proof. intros H. induction l as [|x l IH]; simpl; [reflexivity|]. rewrite H. exact IH. Qed.

Lemma filter_all_true {A} (f : A -> bool) l : (forall x, f x = true) -> filter f l = l.
Proof. intros H. induction l as [|x l IH]; simpl; [reflexivity|]. rewrite H, IH. reflexivity. Qed.

(** X12: an empty query matches no leaf: [get_spec] with [merge=False] returns an empty list and with [merge=True] returns [{}]. *)
Theorem get_spec_empty_query :
  forall specs, all_matches specs [] = [] /\ get_spec specs [] = None.
Proof.
  intros specs. unfold get_spec, all_matches.
  rewrite filter_all_false by reflexivity. split; reflexivity.
Qed.

Lemma str_contains_empty key : str_contains EmptyString key = true.
Proof. destruct key; reflexivity. Qed.

(** X13: a query containing the empty string matches every leaf: [get_spec] with [merge=False] returns all leaves in flattening order. *)
Theorem all_matches_empty_pattern :
  forall specs query,
  In EmptyString query -> all_matches specs query = map snd (spec_leaves [] specs).
Proof.
  intros specs query H. unfold all_matches. f_equal.
  apply filter_all_true. intros [p s]. unfold match_p.
  apply existsb_exists. exists EmptyString. split; [exact H | apply str_contains_empty].
Qed.

Lemma match_p_incl q q' key :
  (forall p, In p q -> In p q') -> match_p q key = true -> match_p q' key = true.
Proof.
  unfold match_p. intros Hi H. apply existsb_exists in H as [p [Hp Hc]].
  apply existsb_exists. eauto.
Qed.

(** X14: only the set of query strings matters: two queries with the same strings (in any order, with any repetitions) give the same matches and the same merged spec. *)
Theorem get_spec_query_as_set :
  forall specs query query',
  (forall p, In p query <-> In p query') ->
  all_matches specs query = all_matches specs query'
  /\ get_spec specs query = get_spec specs query'.
Proof.
  intros specs q q' H.
  assert (E : all_matches specs q = all_matches specs q').
  { unfold all_matches. f_equal. apply filter_ext. intros [p s]. cbn [fst].
    destruct (match_p q (path2key p)) eqn:E1, (match_p q' (path2key p)) eqn:E2;
      try reflexivity.
    - rewrite (match_p_incl q q' _ (fun x => proj1 (H x)) E1) in E2. discriminate.
    - rewrite (match_p_incl q' q _ (fun x => proj2 (H x)) E2) in E1. discriminate. }
  split; [exact E | unfold get_spec; rewrite E; reflexivity].
Qed.

(** X15: adding query strings can only widen the merged spec: if a query yields a spec, the extended query yields one whose lower bounds are no greater and whose upper bounds are no smaller. *)
Theorem get_spec_query_widening :
  forall specs query extra r,
  get_spec specs query = Some r ->
  exists r', get_spec specs (query ++ extra) = Some r'
    /\ (fst (bounds_x r') <= fst (bounds_x r) /\ snd (bounds_x r) <= snd (bounds_x r')
        /\ fst (bounds_y r') <= fst (bounds_y r) /\ snd (bounds_y r) <= snd (bounds_y r'))%Z.
Proof.
  intros specs q q' r H. unfold get_spec in *.
  assert (Hincl : forall s, In s (all_matches specs q) -> In s (all_matches specs (q ++ q'))).
  { intros s Hs. apply all_matches_in in Hs as [p [Hp Hm]].
    apply all_matches_in. exists p. split; [exact Hp|].
    apply (match_p_incl q); [|exact Hm]. intros x Hx. apply in_or_app. left. exact Hx. }
  destruct (all_matches specs q) as [|m ms] eqn:E; [discriminate|].
  simpl in H. inversion H; subst r. clear H.
  destruct (all_matches specs (q ++ q')) as [|m' ms'] eqn:E'.
  { exfalso. apply (Hincl m). left. reflexivity. }
  simpl. eexists; split; [reflexivity|].
  destruct (fold_reduce_is_merge m ms) as [_ [[a [Ha Ea]] [[b [Hb Eb]] [[c [Hc Ec]] [d [Hd Ed]]]]]].
  destruct (fold_reduce_is_merge m' ms') as [L _].
  rewrite Ea, Eb, Ec, Ed.
  destruct (L a (Hincl a Ha)) as [A _].
  destruct (L b (Hincl b Hb)) as [_ [B _]].
  destruct (L c (Hincl c Hc)) as [_ [_ [C _]]].
  destruct (L d (Hincl d Hd)) as [_ [_ [_ D]]].
  repeat split; assumption.
Qed.

(* ------------------------------------------------------------------ *)
(** ** The HWP, boresight, detector-setup and relock operations *)

(** X16: with the HWP stopped and not disabled, spinning it up and then down restores the state exactly and takes 20 + 10 = 30 minutes. *)
Theorem hwp_spin_up_down_round_trip :
  forall minute state,
  hwp_spinning state = false ->
  snd (hwp_spin_down minute (snd (hwp_spin_up minute state false)) false) = state
  /\ (fst (fst (hwp_spin_up minute state false))
      + fst (fst (hwp_spin_down minute (snd (hwp_spin_up minute state false)) false))
      = 30 * minute)%Z.
Proof.
  intros minute [ct az el br hs lr sp ac] H. simpl in H. subst hs.
  split; [reflexivity|]. cbv [hwp_spin_up hwp_spin_down fst snd negb andb hwp_spinning]. lia.
Qed.

(** X17: repeating [hwp_spin_up] (resp. [hwp_spin_down]) with the same [disable_hwp] is a no-op: the second call takes no time, only emits its comment line, and leaves the state unchanged. *)
Theorem hwp_spin_ops_idempotent :
  forall minute state disable_hwp,
  let s1 := snd (hwp_spin_up minute state disable_hwp) in
  let s2 := snd (hwp_spin_down minute state disable_hwp) in
  hwp_spin_up minute s1 disable_hwp
    = ((0%Z, ["# hwp disabled or already spinning"%string]), s1)
  /\ hwp_spin_down minute s2 disable_hwp
    = ((0%Z, ["# hwp disabled or not spinning"%string]), s2).
Proof.
  intros minute state dis s1 s2. subst s1 s2.
  unfold hwp_spin_up, hwp_spin_down.
  destruct dis, (hwp_spinning state) eqn:E; simpl; rewrite ?E; split; reflexivity.
Qed.

Lemma option_Z_eqb_refl x : option_Z_eqb x x = true.
Proof. destruct x; simpl; [apply Z.eqb_refl | reflexivity]. Qed.

(** After [setup_boresight] the state points at the block, with its boresight
    rotation when rotation is applied. *)
Lemma setup_boresight_after fmt state block ap :
  let s1 := snd (setup_boresight fmt state block ap) in
  az_now s1 = sb_az block /\ el_now s1 = sb_alt block
  /\ (ap = true -> boresight_rot_now s1 = sb_boresight_rot block)
  /\ (ap = false -> boresight_rot_now s1 = boresight_rot_now state).
Proof.
  unfold setup_boresight. cbv zeta.
  destruct (ap && negb (option_Z_eqb (boresight_rot_now state) (sb_boresight_rot block))) eqn:Ea;
    simpl;
    match goal with
    | |- context [if ?c then _ else _] => destruct c eqn:Em
    end; simpl;
    try (apply orb_false_iff in Em as [Em1 Em2];
         apply negb_false_iff, Z.eqb_eq in Em1; apply negb_false_iff, Z.eqb_eq in Em2;
         simpl in Em1, Em2);
    (split; [auto|split; [auto|split]]);
    intros ->; simpl in Ea; try discriminate; try reflexivity;
    apply negb_false_iff in Ea; destruct (boresight_rot_now state), (sb_boresight_rot block);
    simpl in Ea; try discriminate; try reflexivity; apply Z.eqb_eq in Ea; congruence.
Qed.

(** X18: applying [setup_boresight] a second time for the same block emits no command and leaves the state unchanged. *)
Theorem setup_boresight_idempotent :
  forall fmt state block apply_boresight_rot,
  setup_boresight fmt (snd (setup_boresight fmt state block apply_boresight_rot))
                  block apply_boresight_rot
  = ([], snd (setup_boresight fmt state block apply_boresight_rot)).
Proof.
  intros fmt state block ap.
  destruct (setup_boresight_after fmt state block ap) as [Ha [He [Ht _]]].
  revert Ha He Ht. generalize (snd (setup_boresight fmt state block ap)) as s1.
  intros s1 Ha He Ht. unfold setup_boresight.
  destruct ap.
  - rewrite (Ht eq_refl), option_Z_eqb_refl. simpl. rewrite Ha, He, !Z.eqb_refl. reflexivity.
  - simpl. rewrite Ha, He, !Z.eqb_refl. reflexivity.
Qed.

(** X19: after [setup_boresight] for a block, [det_setup] for the same block does nothing: no command, no time, the state unchanged. *)
Theorem setup_boresight_then_det_setup_noop :
  forall minute fmt iso state block apply_boresight_rot disable_hwp,
  det_setup minute fmt iso (snd (setup_boresight fmt state block apply_boresight_rot))
            block disable_hwp
  = Some ((0%Z, []), snd (setup_boresight fmt state block apply_boresight_rot)).
Proof.
  intros minute fmt iso state block ap dis.
  destruct (setup_boresight_after fmt state block ap) as [Ha [He _]].
  revert Ha He. generalize (snd (setup_boresight fmt state block ap)) as s1.
  intros s1 Ha He. unfold det_setup. rewrite Ha, He, !Z.eqb_refl. reflexivity.
Qed.

(** X20: [det_setup] does not record the position it moves to.  For a block away from the current position with the HWP stopped and enabled, a first call sets up the detectors and spins the HWP up (60 s + 20 minutes) but leaves [az_now] and [el_now] unchanged; a second call for the same block then takes the spin-down branch and raises, since it calls [hwp_spin_down(state)] without [disable_hwp]. *)
Theorem det_setup_repeat_raises :
  forall minute fmt iso state block,
  (sb_az block <> az_now state \/ sb_alt block <> el_now state) ->
  hwp_spinning state = false ->
  exists cmds s1,
    det_setup minute fmt iso state block false = Some ((60 + 20 * minute)%Z, cmds, s1)
    /\ hwp_spinning s1 = true /\ az_now s1 = az_now state /\ el_now s1 = el_now state
    /\ det_setup minute fmt iso s1 block false = None.
Proof.
  intros minute fmt iso state block Hm Hs.
  assert (Hc : negb (Z.eqb (sb_az block) (az_now state))
               || negb (Z.eqb (sb_alt block) (el_now state)) = true).
  { destruct Hm as [H|H]; apply Z.eqb_neq in H; rewrite H; [reflexivity|].
    apply orb_true_r. }
  unfold det_setup at 1, hwp_spin_up. rewrite Hc, Hs.
  cbv beta iota zeta delta [negb andb].
  eexists. eexists. split; [reflexivity|].
  split; [reflexivity | split; [reflexivity | split; [reflexivity|]]].
  unfold det_setup. cbn [az_now el_now hwp_spinning]. rewrite Hc. reflexivity.
Qed.

(** X21: with a non-negative [u.hour], a second [ufm_relock] at the same current time does not relock: it takes no time and leaves the state unchanged. *)
Theorem ufm_relock_twice_noop :
  forall minute hour state,
  (0 <= hour)%Z ->
  ufm_relock minute hour (snd (ufm_relock minute hour state))
  = ((0%Z, ["# no ufm relock needed at this time"%string]),
     snd (ufm_relock minute hour state)).
Proof.
  intros minute hour state H.
  destruct (match last_ufm_relock state with
            | Some t => (curr_time state - t >? 12 * hour)%Z
            | None => true end) eqn:E.
  - assert (Hs : snd (ufm_relock minute hour state)
                 = mkState (curr_time state) (az_now state) (el_now state)
                     (boresight_rot_now state) (hwp_spinning state)
                     (Some (curr_time state)) (az_speed_now state) (az_accel_now state)).
    { unfold ufm_relock. rewrite E. reflexivity. }
    rewrite Hs. unfold ufm_relock. cbn [last_ufm_relock curr_time].
    replace (curr_time state - curr_time state >? 12 * hour)%Z with false; [reflexivity|].
    symmetry. rewrite Z.gtb_ltb. apply Z.ltb_ge. lia.
  - assert (Hs : snd (ufm_relock minute hour state) = state).
    { unfold ufm_relock. rewrite E. reflexivity. }
    rewrite Hs. unfold ufm_relock. rewrite E. reflexivity.
Qed.

(* ------------------------------------------------------------------ *)
(** ** Witnesses of the further properties *)

(** The hypotheses of [round_robin_length_mismatch_fails] hold on a concrete input. *)
Lemma round_robin_length_mismatch_fails_witness :
  length [[B 1 2]] <> length scenario_A_q
  /\ round_robin scenario_A_q (Some [[B 1 2]]) None 5 = ([], Failed).
Proof.
  split; [cbn; intros H; discriminate H|].
  apply round_robin_length_mismatch_fails. cbn. intros H; discriminate H.
Defined.

(** The hypotheses of [round_robin_never_raises] hold on a concrete input. *)
Lemma round_robin_never_raises_witness :
  Forall2 (fun q v => length q <= length v) scenario_B_q (values_or scenario_B_q (Some scenario_B_v))
  /\ snd (round_robin scenario_B_q (Some scenario_B_v) (Some (fun b => b)) 8) <> Failed.
Proof.
  assert (H : Forall2 (fun q v => length q <= length v) scenario_B_q
                      (values_or scenario_B_q (Some scenario_B_v)))
    by (cbn; repeat constructor).
  split; [exact H | apply round_robin_never_raises; exact H].
Defined.

(** The hypotheses of [round_robin_yields_from_values] hold on a concrete input. *)
Lemma round_robin_yields_from_values_witness :
  In (B 10 15) (fst (round_robin scenario_B_q (Some scenario_B_v) (Some (fun b => b)) 4))
  /\ exists v, In v (values_or scenario_B_q (Some scenario_B_v)) /\ In (B 10 15) v.
Proof.
  split; [vm_compute; left; reflexivity|].
  apply (round_robin_yields_from_values scenario_B_q (Some scenario_B_v) (Some (fun b => b)) 4).
  vm_compute. left. reflexivity.
Defined.

(** The hypotheses of [all_matches_empty_pattern] hold on a concrete input. *)
Lemma all_matches_empty_pattern_witness :
  In EmptyString [EmptyString]
  /\ all_matches spec_tree_example [EmptyString] = map snd (spec_leaves [] spec_tree_example).
Proof.
  split; [left; reflexivity|].
  apply all_matches_empty_pattern. left. reflexivity.
Defined.

(** The hypotheses of [get_spec_query_as_set] hold on a concrete input. *)
Lemma get_spec_query_as_set_witness :
  (forall p, In p ["ws0"; "ws1"]%string <-> In p ["ws1"; "ws0"; "ws0"]%string)
  /\ all_matches spec_tree_example ["ws0"; "ws1"]%string
     = all_matches spec_tree_example ["ws1"; "ws0"; "ws0"]%string
  /\ get_spec spec_tree_example ["ws0"; "ws1"]%string
     = get_spec spec_tree_example ["ws1"; "ws0"; "ws0"]%string.
Proof.
  assert (H : forall p, In p ["ws0"; "ws1"]%string <-> In p ["ws1"; "ws0"; "ws0"]%string)
    by (intros p; simpl; tauto).
  split; [exact H | apply get_spec_query_as_set; exact H].
Defined.

(** The hypotheses of [get_spec_query_widening] hold on a concrete input. *)
Lemma get_spec_query_widening_witness :
  get_spec spec_tree_example ["ws0"%string] = Some (mkSpec (-1, 1)%Z (-2, 2)%Z)
  /\ exists r', get_spec spec_tree_example (["ws0"%string] ++ ["ws1"%string]) = Some r'
     /\ (fst (bounds_x r') <= fst (bounds_x (mkSpec (-1, 1)%Z (-2, 2)%Z))
         /\ snd (bounds_x (mkSpec (-1, 1)%Z (-2, 2)%Z)) <= snd (bounds_x r')
         /\ fst (bounds_y r') <= fst (bounds_y (mkSpec (-1, 1)%Z (-2, 2)%Z))
         /\ snd (bounds_y (mkSpec (-1, 1)%Z (-2, 2)%Z)) <= snd (bounds_y r'))%Z.
Proof.
  split; [vm_compute; reflexivity|].
  apply get_spec_query_widening. vm_compute. reflexivity.
Defined.

(** The hypotheses of [hwp_spin_up_down_round_trip] hold on a concrete input. *)
Lemma hwp_spin_up_down_round_trip_witness :
  hwp_spinning state_example = false
  /\ snd (hwp_spin_down 60 (snd (hwp_spin_up 60 state_example false)) false) = state_example
  /\ (fst (fst (hwp_spin_up 60 state_example false))
      + fst (fst (hwp_spin_down 60 (snd (hwp_spin_up 60 state_example false)) false))
      = 30 * 60)%Z.
Proof.
  split; [reflexivity|].
  apply hwp_spin_up_down_round_trip. reflexivity.
Defined.

(** The hypotheses of [det_setup_repeat_raises] hold on a concrete input. *)
Lemma det_setup_repeat_raises_witness :
  (sb_az (blk "cal-1" "cal" 100 200 0 50) <> az_now state_example
   \/ sb_alt (blk "cal-1" "cal" 100 200 0 50) <> el_now state_example)
  /\ hwp_spinning state_example = false
  /\ exists cmds s1,
     det_setup 60 (fun _ => EmptyString) (fun _ => EmptyString) state_example
               (blk "cal-1" "cal" 100 200 0 50) false
     = Some ((60 + 20 * 60)%Z, cmds, s1)
     /\ hwp_spinning s1 = true /\ az_now s1 = az_now state_example
     /\ el_now s1 = el_now state_example
     /\ det_setup 60 (fun _ => EmptyString) (fun _ => EmptyString) s1
                  (blk "cal-1" "cal" 100 200 0 50) false = None.
Proof.
  split; [left; cbn; intros E; discriminate E|].
  split; [reflexivity|].
  apply det_setup_repeat_raises; [left; cbn; intros E; discriminate E | reflexivity].
Defined.

(** The hypotheses of [ufm_relock_twice_noop] hold on a concrete input. *)
Lemma ufm_relock_twice_noop_witness :
  (0 <= 1)%Z
  /\ ufm_relock 60 1 (snd (ufm_relock 60 1 state_example))
     = ((0%Z, ["# no ufm relock needed at this time"%string]),
        snd (ufm_relock 60 1 state_example)).
Proof.
  split; [lia|]. apply ufm_relock_twice_noop. lia.
Defined.

(** The hypothesis of [round_robin_rule_rejecting_all_yields_nothing] holds
    on scenario B for a rule that extends every block by one. *)
Lemma round_robin_rule_rejecting_all_yields_nothing_witness :
  (forall q b, In q scenario_B_q -> In b q -> extend_by_one b <> b)
  /\ fst (round_robin scenario_B_q (Some scenario_B_v) (Some extend_by_one) 8) = [].
Proof.
  assert (H : forall q b, In q scenario_B_q -> In b q -> extend_by_one b <> b).
  { intros q [a c] _ _ E. unfold extend_by_one in E. cbn [t0 t1] in E.
    injection E. lia. }
  split; [exact H|].
  apply (round_robin_rule_rejecting_all_yields_nothing scenario_B_q (Some scenario_B_v)
           extend_by_one 8 H).
Defined.

(** The hypotheses of [seq2cmd_loop_cal_block_raises] hold on a concrete input. *)
Lemma seq2cmd_loop_cal_block_raises_witness :
  In cal_late [iv_block; cal_late] /\ sb_subtype cal_late = "cal"%string
  /\ exists e, seq2cmd_loop costs_example false (seq2cmd_init 0) [iv_block; cal_late] = Raises e.
Proof.
  assert (H1 : In cal_late [iv_block; cal_late]) by (right; left; reflexivity).
  assert (H2 : sb_subtype cal_late = "cal"%string) by reflexivity.
  split; [exact H1|]. split; [exact H2|].
  exact (seq2cmd_loop_cal_block_raises costs_example false (seq2cmd_init 0) _ _ H1 H2).
Defined.

(** The hypothesis of [seq2cmd_loop_completes_only_skipping] holds on a
    concrete input: a late CMB block, then a block of another subtype. *)
Lemma seq2cmd_loop_completes_only_skipping_witness :
  seq2cmd_loop costs_example false (mkSeqState 0 false false None) [cmb_late; iv_block]
    = Ok ([SkipNote cmb_late], mkSeqState 20 false false None)
  /\ Forall (fun b => sb_subtype b <> "cal"%string) [cmb_late; iv_block]
  /\ [SkipNote cmb_late]
     = map SkipNote (filter (fun b => String.eqb (sb_subtype b) "cmb") [cmb_late; iv_block])
  /\ is_det_setup (mkSeqState 20 false false None) = false
  /\ is_hwp_spinning (mkSeqState 20 false false None) = false
  /\ cur_boresight_angle (mkSeqState 20 false false None) = None.
Proof.
  assert (H : seq2cmd_loop costs_example false (mkSeqState 0 false false None) [cmb_late; iv_block]
                = Ok ([SkipNote cmb_late], mkSeqState 20 false false None))
    by (vm_compute; reflexivity).
  split; [exact H|].
  exact (seq2cmd_loop_completes_only_skipping costs_example false 0 None _ _ _ H).
Defined.

(** The hypothesis of [seq2cmd_loop_raises_attribute_error] holds on a
    concrete input: a late CMB block, then one that fits. *)
Lemma seq2cmd_loop_raises_attribute_error_witness :
  seq2cmd_loop costs_example false (mkSeqState 0 false false None) [cmb_late; cmb_fits]
    = Raises AttributeError
  /\ AttributeError = AttributeError.
Proof.
  assert (H : seq2cmd_loop costs_example false (mkSeqState 0 false false None) [cmb_late; cmb_fits]
                = Raises AttributeError)
    by (vm_compute; reflexivity).
  split; [exact H|].
  exact (seq2cmd_loop_raises_attribute_error costs_example false 0 None _ _ H).
Defined.

(** The hypothesis of [seq2cmd_loop_other_subtypes_emit_nothing] holds on a
    concrete input. *)
Lemma seq2cmd_loop_other_subtypes_emit_nothing_witness :
  Forall (fun b => sb_subtype b <> "cmb"%string /\ sb_subtype b <> "cal"%string)
         [iv_block; blk "iv-2" "iv" 20 30 0 50]
  /\ seq2cmd_loop costs_example false (seq2cmd_init 0) [iv_block; blk "iv-2" "iv" 20 30 0 50]
     = Ok ([], mkSeqState 40 false false None).
Proof.
  assert (H : Forall (fun b => sb_subtype b <> "cmb"%string /\ sb_subtype b <> "cal"%string)
                     [iv_block; blk "iv-2" "iv" 20 30 0 50]).
  { repeat constructor; cbn; intros E; discriminate E. }
  split; [exact H|].
  rewrite (seq2cmd_loop_other_subtypes_emit_nothing costs_example false (seq2cmd_init 0) _ H).
  reflexivity.
Defined.

(** The hypotheses of [setup_time_cal_ge_cmb] hold on a concrete input. *)
Lemma setup_time_cal_ge_cmb_witness :
  (setup_time costs_example (seq2cmd_init 0) cmb_late
     <= setup_time costs_example (seq2cmd_init 0) cal_late)%Z.
Proof.
  apply setup_time_cal_ge_cmb; vm_compute; try reflexivity; discriminate.
Defined.
